(** * PastelPlayer: the visualiser pipeline and the playlist controller

    A shallow embedding of [src/index.tsx].  JavaScript numbers are read as
    real numbers ([R], exact arithmetic): [Math.exp], [Math.log],
    [Math.floor], [Math.min], [Math.max] and [Math.abs] become [exp], [ln],
    [Zfloor], [Rmin], [Rmax] and [Rabs].  The [Uint8Array] of frequency
    magnitudes is a list of integers, the playlist a list of records, and
    the React state together with the refs one record that every handler
    maps to its successor. *)

From Stdlib Require Import String Ascii DecimalString.
From Stdlib Require Import Reals RList Lra Lia ZArith List Bool.
Import ListNotations.

Open Scope R_scope.

(** ** Visualiser: [drawVisualizer] *)

Module Visualizer.

(** The literal [{x, y}] pushed on [points]. *)
Record Point : Type := mkPoint { x : R; y : R }.

Definition origin : Point := mkPoint 0 0.

(** [analyser.fftSize = 4096], set once by [initAudioContext]. *)
Definition fftSize : Z := 4096.

Definition minFreq : R := 20.
Definition maxFreq : R := 16000.
Definition logMin : R := ln minFreq.
Definition logMax : R := ln maxFreq.
Definition steps : nat := 180.

(** [audioContextRef.current?.sampleRate || 44100]: a missing context and a
    falsy rate both fall back to 44100. *)
Definition sampleRateOf (ctxRate : option R) : R :=
  match ctxRate with
  | Some r => if Req_dec_T r 0 then 44100 else r
  | None => 44100
  end.

(** [percent = i / steps] and
    [freq = Math.exp(logMin + (logMax - logMin) * percent)]. *)
Definition percentAt (i : nat) : R := INR i / INR steps.

Definition freqAt (i : nat) : R :=
  exp (logMin + (logMax - logMin) * percentAt i).

(** [index = Math.floor(freq / (sampleRate / analyser.fftSize))]. *)
Definition binIndex (sampleRate freq : R) : Z :=
  Zfloor (freq / (sampleRate / IZR fftSize)).

(** [let val = 0; if (index >= 0 && index < bufferLength) val = dataArray[index]].
    [bufferLength] is [analyser.frequencyBinCount], the length [dataArray]
    was allocated with. *)
Definition magnitudeAt (dataArray : list Z) (index : Z) : R :=
  if ((0 <=? index)%Z && (index <? Z.of_nat (length dataArray))%Z)%bool
  then IZR (nth (Z.to_nat index) dataArray 0%Z)
  else 0.

Definition NOISE_THRESHOLD : R := 10.

(** The noise gate, lines 126-132; [Math.pow(val, 2.0)] is the square. *)
Definition noiseGate (val : R) : R :=
  if Rlt_dec val NOISE_THRESHOLD then 0
  else ((val - NOISE_THRESHOLD) / (255 - NOISE_THRESHOLD)) ^ 2.

(** The equaliser weight, lines 135-143: three [if]s in sequence over one
    mutable [weight]. *)
Definition eqWeight (freq : R) : R :=
  let weight := 1 in
  let weight :=
    if Rlt_dec freq 60 then Rmax (1 / 10) ((freq - 20) / 40) else weight in
  let weight :=
    if Rle_dec 200 freq then
      if Rle_dec freq 4000 then
        let center := 1000 in
        let dist := Rabs (freq - center) in
        let boost := Rmax 0 (12 / 10 - dist / 2000) in
        weight + boost * (6 / 10)
      else weight
    else weight in
  if Rlt_dec 6000 freq then weight * (13 / 10) else weight.

(** One iteration of the point-building loop, lines 116-149. *)
Definition pointAt (dataArray : list Z) (sampleRate width height : R)
    (i : nat) : Point :=
  let percent := percentAt i in
  let freq := freqAt i in
  let index := binIndex sampleRate freq in
  let val := magnitudeAt dataArray index in
  let val := noiseGate val in
  let val := val * eqWeight freq in
  let amp := val * (height * (25 / 100)) in
  mkPoint (width * percent) amp.

(** [for (let i = 0; i <= steps; i++) { ...; points.push({x, y: amp}) }]. *)
Definition points (dataArray : list Z) (ctxRate : option R)
    (width height : R) : list Point :=
  map (pointAt dataArray (sampleRateOf ctxRate) width height)
      (seq 0 (S steps)).

(** *** Smoothing, lines 154-160 *)

(** [smoothPoints[i].y = v], the in-place write of one field.  (The source
    would throw on an index past the end; the loop never produces one, and
    the model leaves the list as it is there.) *)
Fixpoint setY (ps : list Point) (i : nat) (v : R) : list Point :=
  match ps, i with
  | [], _ => []
  | p :: ps', O => mkPoint (x p) v :: ps'
  | p :: ps', S i' => p :: setY ps' i' v
  end.

(** The body of the inner loop: it reads [smoothPoints[i-1]], already
    overwritten by the previous iteration, and the two entries not yet
    written. *)
Definition smoothStep (smoothPoints : list Point) (i : nat) : list Point :=
  setY smoothPoints i
       ((y (nth (i - 1) smoothPoints origin)
         + y (nth i smoothPoints origin)
         + y (nth (i + 1) smoothPoints origin)) / 3).

(** The inner loop after its first [k] iterations, [i = 1 .. k]. *)
Definition sweep (k : nat) (smoothPoints : list Point) : list Point :=
  fold_left smoothStep (seq 1 k) smoothPoints.

(** [for (let i = 1; i < smoothPoints.length - 1; i++)]: all of its
    [length - 2] iterations (none when fewer than three points). *)
Definition smoothPass (smoothPoints : list Point) : list Point :=
  sweep (length smoothPoints - 2) smoothPoints.

Definition passes : nat := 3.

(** [for (let p = 0; p < passes; p++)] around the inner loop.  The spread
    copy [[...points]] shares the point objects with [points], which is
    not read again. *)
Definition smooth (pts : list Point) : list Point :=
  Nat.iter passes smoothPass pts.

(** The original [y] values the spec compares a smoothed point with: the
    point's own and its two neighbours'. *)
Definition window3 (pts : list Point) (i : nat) : list R :=
  [y (nth (i - 1) pts origin); y (nth i pts origin);
   y (nth (i + 1) pts origin)].

(** The original [y] values that can reach index [i] in three in-place
    passes: everything to its left, and three places to its right. *)
Definition reach (pts : list Point) (i : nat) : list R :=
  map y (firstn (i + 4) pts).

(** *** The path, lines 163-187 *)

(** The calls made on the 2D context between [beginPath] and [fill]. *)
Inductive PathCmd : Type :=
| moveTo (px py : R)
| quadraticCurveTo (cpx cpy px py : R)
| lineTo (px py : R)
| closePath.

(** Body of the "Top" loop. *)
Definition topCurve (centerY : R) (smoothPoints : list Point) (i : nat)
    : PathCmd :=
  let p0 := nth i smoothPoints origin in
  let p1 := nth (i + 1) smoothPoints origin in
  let midX := (x p0 + x p1) / 2 in
  let midY := centerY - (y p0 + y p1) / 2 in
  quadraticCurveTo (x p0) (centerY - y p0) midX midY.

(** Body of the "Bottom (Mirror)" loop. *)
Definition bottomCurve (centerY : R) (smoothPoints : list Point) (i : nat)
    : PathCmd :=
  let p0 := nth i smoothPoints origin in
  let p1 := nth (i - 1) smoothPoints origin in
  let midX := (x p0 + x p1) / 2 in
  let midY := centerY + (y p0 + y p1) / 2 in
  quadraticCurveTo (x p0) (centerY + y p0) midX midY.

(** Everything after [moveTo(0, centerY)] up to [lineTo(width, centerY)]:
    [for (i = 0; i < length - 1; i++)], then the two [lineTo]. *)
Definition upperCmds (width centerY : R) (smoothPoints : list Point)
    : list PathCmd :=
  let last := nth (length smoothPoints - 1) smoothPoints origin in
  map (topCurve centerY smoothPoints) (seq 0 (length smoothPoints - 1))
  ++ [lineTo (x last) (centerY - y last); lineTo width centerY].

(** [for (i = length - 1; i > 0; i--)], then [closePath]. *)
Definition lowerCmds (centerY : R) (smoothPoints : list Point)
    : list PathCmd :=
  map (bottomCurve centerY smoothPoints)
      (rev (seq 1 (length smoothPoints - 1)))
  ++ [closePath].

(** The whole path.  On an empty array [last] is [undefined] and
    [last.x] throws: [None]. *)
Definition path (width centerY : R) (smoothPoints : list Point)
    : option (list PathCmd) :=
  match smoothPoints with
  | [] => None
  | _ :: _ =>
      Some (moveTo 0 centerY
            :: upperCmds width centerY smoothPoints
            ++ lowerCmds centerY smoothPoints)
  end.

(** One render tick from the snapshot to the path:
    [centerY = height / 2], the points, the smoothing, the path. *)
Definition drawVisualizer (dataArray : list Z) (ctxRate : option R)
    (width height : R) : option (list PathCmd) :=
  path width (height / 2) (smooth (points dataArray ctxRate width height)).

(** *** What a path draws

    The curve each canvas call adds, as the canvas API defines it: a
    straight segment for [lineTo] and [closePath] (back to the start of
    the sub-path), a quadratic Bezier curve from the current point for
    [quadraticCurveTo]. *)

Definition Coord : Type := (R * R)%type.

Inductive Segment : Type :=
| Line (a b : Coord)
| Quad (a c b : Coord).

(** The pen after a run of calls: start of the sub-path, current point. *)
Fixpoint pen (start cur : Coord) (cmds : list PathCmd) : Coord * Coord :=
  match cmds with
  | [] => (start, cur)
  | moveTo px py :: rest => pen (px, py) (px, py) rest
  | quadraticCurveTo _ _ px py :: rest => pen start (px, py) rest
  | lineTo px py :: rest => pen start (px, py) rest
  | closePath :: rest => pen start start rest
  end.

Fixpoint segments (start cur : Coord) (cmds : list PathCmd)
    : list Segment :=
  match cmds with
  | [] => []
  | moveTo px py :: rest => segments (px, py) (px, py) rest
  | quadraticCurveTo cpx cpy px py :: rest =>
      Quad cur (cpx, cpy) (px, py) :: segments start (px, py) rest
  | lineTo px py :: rest => Line cur (px, py) :: segments start (px, py) rest
  | closePath :: rest => Line cur start :: segments start start rest
  end.

Definition linear (a b t : R) : R := (1 - t) * a + t * b.

Definition bezier (a c b t : R) : R :=
  (1 - t) ^ 2 * a + 2 * (1 - t) * t * c + t ^ 2 * b.

Definition pointOn (s : Segment) (t : R) : Coord :=
  match s with
  | Line a b => (linear (fst a) (fst b) t, linear (snd a) (snd b) t)
  | Quad a c b =>
      (bezier (fst a) (fst c) (fst b) t, bezier (snd a) (snd c) (snd b) t)
  end.

Definition onSegment (s : Segment) (q : Coord) : Prop :=
  exists t : R, 0 <= t <= 1 /\ pointOn s t = q.

Definition onContour (segs : list Segment) (q : Coord) : Prop :=
  exists s, In s segs /\ onSegment s q.

(** The upper contour starts at [moveTo(0, centerY)]; the lower one
    continues from where the upper one ends, [(width, centerY)]. *)
Definition upperContour (width centerY : R) (smoothPoints : list Point)
    : list Segment :=
  segments (0, centerY) (0, centerY) (upperCmds width centerY smoothPoints).

Definition lowerContour (width centerY : R) (smoothPoints : list Point)
    : list Segment :=
  segments (0, centerY) (width, centerY) (lowerCmds centerY smoothPoints).

(** The spec's symmetry: at every [px], an offset [d] above [centerY] on
    the upper contour is matched by the offset [d] below on the lower one,
    and conversely. *)
Definition mirrorSymmetric (width centerY : R) (smoothPoints : list Point)
    : Prop :=
  forall px d : R,
    onContour (upperContour width centerY smoothPoints) (px, centerY - d)
    <-> onContour (lowerContour width centerY smoothPoints) (px, centerY + d).

(** The points the two loops hand to [quadraticCurveTo]: the control
    point for index [i], and the midpoint the curve for [p0 = i],
    [p1 = j] ends on, above ([upper]) and below ([lower]) the centre. *)
Definition upperControl (centerY : R) (sp : list Point) (i : nat) : Coord :=
  (x (nth i sp origin), centerY - y (nth i sp origin)).

Definition upperMid (centerY : R) (sp : list Point) (i j : nat) : Coord :=
  ((x (nth i sp origin) + x (nth j sp origin)) / 2,
   centerY - (y (nth i sp origin) + y (nth j sp origin)) / 2).

Definition lowerControl (centerY : R) (sp : list Point) (i : nat) : Coord :=
  (x (nth i sp origin), centerY + y (nth i sp origin)).

Definition lowerMid (centerY : R) (sp : list Point) (i j : nat) : Coord :=
  ((x (nth i sp origin) + x (nth j sp origin)) / 2,
   centerY + (y (nth i sp origin) + y (nth j sp origin)) / 2).

(** The curve the "Top" loop draws for an index [i >= 1], and the one the
    "Bottom" loop draws for an index [i <= length - 2]. *)
Definition upperCurve (centerY : R) (sp : list Point) (i : nat) : Segment :=
  Quad (upperMid centerY sp (i - 1) (i - 1 + 1))
       (upperControl centerY sp i)
       (upperMid centerY sp i (i + 1)).

Definition lowerCurve (centerY : R) (sp : list Point) (i : nat) : Segment :=
  Quad (lowerMid centerY sp (i + 1) (i + 1 - 1))
       (lowerControl centerY sp i)
       (lowerMid centerY sp i (i - 1)).

(** All defining points of a segment lie at or to the right of [m]. *)
Definition rightOf (m : R) (s : Segment) : Prop :=
  match s with
  | Line a b => m <= fst a /\ m <= fst b
  | Quad a c b => m <= fst a /\ m <= fst c /\ m <= fst b
  end.

(** [x] strictly increases along the sequence. *)
Definition increasingX (pts : list Point) : Prop :=
  forall i j : nat, (i < j < length pts)%nat ->
    x (nth i pts origin) < x (nth j pts origin).

(** Sample sequences used below. *)
Definition spike4 : list Point :=
  [mkPoint 0 9; mkPoint 1 0; mkPoint 2 0; mkPoint 3 0].

Definition spike5 : list Point :=
  [mkPoint 0 9; mkPoint 1 0; mkPoint 2 0; mkPoint 3 0; mkPoint 4 0].

(** A full-scale snapshot, every one of the 2048 bins at 255. *)
Definition fullScale : list Z := repeat 255%Z 2048.

(** Canvas [y] grows downwards: a segment whose defining points have
    [y <= c] lies on or above the horizontal line at [c], one whose
    defining points have [y >= c] on or below it. *)
Definition onOrAbove (c : R) (s : Segment) : Prop :=
  match s with
  | Line a b => snd a <= c /\ snd b <= c
  | Quad a q b => snd a <= c /\ snd q <= c /\ snd b <= c
  end.

Definition onOrBelow (c : R) (s : Segment) : Prop :=
  match s with
  | Line a b => c <= snd a /\ c <= snd b
  | Quad a q b => c <= snd a /\ c <= snd q /\ c <= snd b
  end.

(** The point a call moves the pen to and, for a curve, its control
    point. *)
Definition cmdPoints (cmd : PathCmd) : list Coord :=
  match cmd with
  | moveTo px py => [(px, py)]
  | quadraticCurveTo cpx cpy px py => [(cpx, cpy); (px, py)]
  | lineTo px py => [(px, py)]
  | closePath => []
  end.

End Visualizer.

(** ** Playlist and playback state: the handlers of [App] *)

Module Player.

(** [Song] of [src/types.ts]; the optional [file] and [duration] fields
    are never read by the handlers. *)
Record Song : Type := mkSong { id : string; title : string; url : string }.

Open Scope string_scope.

(** The calls the handlers make on the audio element, the gain node, the
    render loop, the canvas and [URL], in the order made;
    [drawVisualizer_start] is the call [drawVisualizer()] that starts the
    render loop. *)
Inductive Call : Type :=
| audio_src (u : string)
| audio_play
| audio_pause
| gain_cancelScheduledValues
| gain_setValueAtTime (v : R)
| gain_linearRampToValueAtTime (v after : R)
| drawVisualizer_start
| cancelAnimationFrame (handle : nat)
| canvas_clearRect
| revokeObjectURL (u : string).

(** The React state ([useState]) and the refs ([useRef]) of [App]. *)
Record State : Type := mkState {
  songs : list Song;
  currentSongIndex : Z;
  isPlaying : bool;
  duration : R;
  currentTime : R;
  (** [audioRef.current]: [None] before mount, else [audio.currentTime]. *)
  audioRef : option R;
  (** [audioContextRef.current] and [fadeGainRef.current] are set. *)
  audioContextRef : bool;
  isVisualizerActiveRef : bool;
  requestRef : option nat;
  calls : list Call
}.

Definition setSongs (v : list Song) (st : State) : State :=
  mkState v (currentSongIndex st) (isPlaying st) (duration st)
          (currentTime st) (audioRef st) (audioContextRef st)
          (isVisualizerActiveRef st) (requestRef st) (calls st).

Definition setCurrentSongIndex (v : Z) (st : State) : State :=
  mkState (songs st) v (isPlaying st) (duration st)
          (currentTime st) (audioRef st) (audioContextRef st)
          (isVisualizerActiveRef st) (requestRef st) (calls st).

Definition setIsPlaying (v : bool) (st : State) : State :=
  mkState (songs st) (currentSongIndex st) v (duration st)
          (currentTime st) (audioRef st) (audioContextRef st)
          (isVisualizerActiveRef st) (requestRef st) (calls st).

Definition setCurrentTime (v : R) (st : State) : State :=
  mkState (songs st) (currentSongIndex st) (isPlaying st) (duration st)
          v (audioRef st) (audioContextRef st)
          (isVisualizerActiveRef st) (requestRef st) (calls st).

Definition setAudioRef (v : option R) (st : State) : State :=
  mkState (songs st) (currentSongIndex st) (isPlaying st) (duration st)
          (currentTime st) v (audioContextRef st)
          (isVisualizerActiveRef st) (requestRef st) (calls st).

Definition setAudioContextRef (v : bool) (st : State) : State :=
  mkState (songs st) (currentSongIndex st) (isPlaying st) (duration st)
          (currentTime st) (audioRef st) v
          (isVisualizerActiveRef st) (requestRef st) (calls st).

Definition setIsVisualizerActiveRef (v : bool) (st : State) : State :=
  mkState (songs st) (currentSongIndex st) (isPlaying st) (duration st)
          (currentTime st) (audioRef st) (audioContextRef st)
          v (requestRef st) (calls st).

(** Append one call to the log. *)
Definition call (c : Call) (st : State) : State :=
  mkState (songs st) (currentSongIndex st) (isPlaying st) (duration st)
          (currentTime st) (audioRef st) (audioContextRef st)
          (isVisualizerActiveRef st) (requestRef st) (calls st ++ [c]).

(** [songs[i]]: [undefined] ([None]) outside the array. *)
Definition songAt (l : list Song) (i : Z) : option Song :=
  if (i <? 0)%Z then None else nth_error l (Z.to_nat i).

(** [Array.prototype.findIndex]: the first index whose element passes the
    test, [-1] if there is none. *)
Fixpoint findIndexFrom (f : Song -> bool) (l : list Song) (i : Z) : Z :=
  match l with
  | [] => (-1)%Z
  | s :: rest => if f s then i else findIndexFrom f rest (i + 1)%Z
  end.

Definition findIndex (f : Song -> bool) (l : list Song) : Z :=
  findIndexFrom f l 0%Z.

(** The canvas is rendered only while [songs[currentSongIndex]] exists, so
    [canvasRef.current] is set exactly then. *)
Definition canvasRef (st : State) : bool :=
  match songAt (songs st) (currentSongIndex st) with
  | Some _ => true
  | None => false
  end.

(** [playSong], lines 344-349. *)
Definition playSong (index : Z) (st : State) : State :=
  if ((0 <=? index)%Z && (index <? Z.of_nat (length (songs st)))%Z)%bool
  then setIsPlaying true (setCurrentSongIndex index st)
  else st.

(** [nextSong], lines 351-355; JavaScript's [%] truncates, as [Z.rem]. *)
Definition nextSong (st : State) : State :=
  if (length (songs st) =? 0)%nat then st
  else
    let nextIndex :=
      Z.rem (currentSongIndex st + 1) (Z.of_nat (length (songs st))) in
    playSong nextIndex st.

(** [duration || 0]. *)
Definition orZero (d : R) : R := if Req_dec_T d 0 then 0 else d.

(** [skipTime], lines 357-363. *)
Definition skipTime (amount : R) (st : State) : State :=
  match audioRef st with
  | Some audioTime =>
      let newTime := audioTime + amount in
      let audioTime' := Rmin (Rmax newTime 0) (orZero (duration st)) in
      setCurrentTime audioTime' (setAudioRef (Some audioTime') st)
  | None => st
  end.

(** [deleteSong], lines 365-387 ([e.stopPropagation()] aside). *)
Definition deleteSong (id0 : string) (st : State) : State :=
  let hasId := fun s : Song => String.eqb (id s) id0 in
  let st1 :=
    match find hasId (songs st) with
    | Some songToDelete => call (revokeObjectURL (url songToDelete)) st
    | None => st
    end in
  let indexToRemove := findIndex hasId (songs st) in
  let st2 :=
    if (indexToRemove =? currentSongIndex st)%Z then
      let a := setIsPlaying false st1 in
      let a := match audioRef a with
               | Some _ => call audio_pause a
               | None => a
               end in
      let a := setIsVisualizerActiveRef false a in
      let a := match requestRef a with
               | Some h => call (cancelAnimationFrame h) a
               | None => a
               end in
      let a := setCurrentSongIndex (-1) a in
      if canvasRef st then call canvas_clearRect a else a
    else if (indexToRemove <? currentSongIndex st)%Z then
      setCurrentSongIndex (currentSongIndex st - 1) st1
    else st1 in
  setSongs (filter (fun s => negb (hasId s)) (songs st)) st2.

(** [initAudioContext], lines 41-78, as far as the state here records it:
    [if (audioContextRef.current || !audioRef.current) return], else the
    context and the gain node are created (the platform calls are taken to
    succeed; the source logs and goes on when they throw). *)
Definition initAudioContext (st : State) : State :=
  match audioRef st with
  | Some _ => if audioContextRef st then st else setAudioContextRef true st
  | None => st
  end.

(** The [try] block of [changeSong], lines 290-309.  [playOk] tells
    whether the promise of [audio.play()] resolves; when it rejects the
    [catch] resets the playing flag. *)
Definition autoPlay (playOk : bool) (st : State) : State :=
  let a := if isVisualizerActiveRef st then st
           else call drawVisualizer_start
                  (setIsVisualizerActiveRef true st) in
  let a := if audioContextRef a
           then call (gain_setValueAtTime 0)
                  (call gain_cancelScheduledValues a)
           else a in
  let a := call audio_play a in
  if playOk then
    if audioContextRef a
    then call (gain_linearRampToValueAtTime 1 (8 / 10)) a
    else a
  else setIsPlaying false a.

(** [changeSong], lines 278-313, the body of the song-change effect. *)
Definition changeSong (playOk : bool) (st : State) : State :=
  if negb (currentSongIndex st =? -1)%Z then
    match songAt (songs st) (currentSongIndex st) with
    | Some song =>
        match audioRef st with
        | Some _ =>
            let a := call (audio_src (url song)) st in
            if isPlaying a then
              let a := if audioContextRef a then a else initAudioContext a in
              autoPlay playOk a
            else a
        | None => st
        end
    | None => st
    end
  else st.

(** One handler run followed by React's commit.  The song-change effect is
    declared with the dependency array
    [[currentSongIndex, initAudioContext, drawVisualizer]], the two
    callbacks being created once ([useCallback(..., [])]): it runs again
    exactly when [currentSongIndex] differs from the previous render. *)
Definition dispatch (playOk : bool) (handler : State -> State) (st : State)
    : State :=
  let st' := handler st in
  if (currentSongIndex st' =? currentSongIndex st)%Z then st'
  else changeSong playOk st'.

(** [onEnded={nextSong}]. *)
Definition onEnded (playOk : bool) (st : State) : State :=
  dispatch playOk nextSong st.

(** The spec's clamp of a target time to [[lo, hi]]. *)
Definition clamp (lo hi t : R) : R :=
  if Rlt_dec t lo then lo else if Rlt_dec hi t then hi else t.

(** Removing the element at position [k]. *)
Definition removeAt (k : nat) (l : list Song) : list Song :=
  firstn k l ++ skipn (S k) l.

(** Song ids are pairwise distinct. *)
Definition distinctIds (l : list Song) : Prop := NoDup (map id l).

(** Sample playlists and states used below. *)
Definition songA : Song := mkSong "a" "A" "blob:a".
Definition songB : Song := mkSong "b" "B" "blob:b".
Definition songC : Song := mkSong "c" "C" "blob:c".
(** A second entry that drew the same random id as [songA]. *)
Definition songA' : Song := mkSong "a" "A2" "blob:a2".

Definition playing (l : list Song) (index : Z) : State :=
  mkState l index true 180 0 (Some 0%R) true true (Some 1%nat) [].

(** *** The other handlers *)

Definition setRequestRef (v : option nat) (st : State) : State :=
  mkState (songs st) (currentSongIndex st) (isPlaying st) (duration st)
          (currentTime st) (audioRef st) (audioContextRef st)
          (isVisualizerActiveRef st) v (calls st).

(** The ['previoustrack'] media-session handler, lines 432-436. *)
Definition previousTrack (st : State) : State :=
  if (length (songs st) =? 0)%nat then st
  else
    let prevIndex :=
      Z.rem (currentSongIndex st - 1 + Z.of_nat (length (songs st)))
            (Z.of_nat (length (songs st))) in
    playSong prevIndex st.

(** What [addFiles] reads of a [File]. *)
Record File : Type := mkFile { name : string; type : string }.

(** [file.name.replace(/\.[^/.]+$/, "")], line 325.
    [extensionChars] is [[^/.]*] up to the end of the string,
    [matchesExtension] the whole pattern at the head of the string;
    [stripExtension] cuts at the leftmost position where it matches. *)
Definition isSlashOrDot (c : ascii) : bool :=
  (Ascii.eqb c "/" || Ascii.eqb c ".")%bool.

Fixpoint extensionChars (s : string) : bool :=
  match s with
  | EmptyString => true
  | String c rest => (negb (isSlashOrDot c) && extensionChars rest)%bool
  end.

Definition matchesExtension (s : string) : bool :=
  match s with
  | String c (String d rest) =>
      (Ascii.eqb c "." && extensionChars (String d rest))%bool
  | _ => false
  end.

Fixpoint stripExtension (s : string) : string :=
  if matchesExtension s then EmptyString
  else match s with
       | EmptyString => EmptyString
       | String c rest => String c (stripExtension rest)
       end.

(** [addFiles], lines 320-337.  [rand k] is the value of
    [Math.random().toString(36).substr(2, 9)] and [objectURL k] that of
    [URL.createObjectURL(file)] for the [k]-th file that passes the
    filter. *)
Definition addFiles (rand objectURL : nat -> string) (files : list File)
    (st : State) : State :=
  let accepted := filter (fun file => prefix "audio/" (type file)) files in
  let newSongs :=
    map (fun kf : nat * File =>
           mkSong (rand (fst kf)) (stripExtension (name (snd kf)))
                  (objectURL (fst kf)))
        (combine (seq 0 (length accepted)) accepted) in
  let updated := (songs st ++ newSongs)%list in
  let st' :=
    if ((currentSongIndex st =? -1)%Z && negb (length updated =? 0)%nat)%bool
    then setCurrentSongIndex 0 st
    else st in
  setSongs updated st'.

(** The callback of [setTimeout(..., 500)] in the pause sequence, lines
    233-247. *)
Definition pauseTimeout (st : State) : State :=
  let a := match audioRef st with
           | Some _ => call audio_pause st
           | None => st
           end in
  let a := setIsVisualizerActiveRef false a in
  let a := match requestRef a with
           | Some h => setRequestRef None (call (cancelAnimationFrame h) a)
           | None => a
           end in
  if canvasRef a then call canvas_clearRect a else a.

(** The timers a handler leaves pending. *)
Inductive Timer : Type := pauseTimer.

(** [togglePlay], lines 211-272: the state after the handler, and the
    timers it has set.  [gainValue] is [fadeGain.gain.value] as read by the
    pause sequence; [playOk] tells whether the promise of [audio.play()]
    resolves (there is no [catch] here: on rejection the rest of the play
    sequence is skipped).  [audio.volume] is not part of the state. *)
Definition togglePlay (gainValue : R) (playOk : bool) (st : State)
    : State * list Timer :=
  match audioRef st with
  | None => (st, [])
  | Some _ =>
      if (currentSongIndex st =? -1)%Z then (st, [])
      else
        let a := if audioContextRef st then st else initAudioContext st in
        if isPlaying st then
          let a := setIsPlaying false a in
          let a := if audioContextRef a
                   then call (gain_linearRampToValueAtTime 0 (5 / 10))
                          (call (gain_setValueAtTime gainValue)
                             (call gain_cancelScheduledValues a))
                   else a in
          (a, [pauseTimer])
        else
          let a := if isVisualizerActiveRef a then a
                   else call drawVisualizer_start
                          (setIsVisualizerActiveRef true a) in
          let a := if audioContextRef a
                   then call (gain_setValueAtTime 0)
                          (call gain_cancelScheduledValues a)
                   else a in
          let a := call audio_play a in
          if playOk then
            let a := setIsPlaying true a in
            (if audioContextRef a
             then call (gain_linearRampToValueAtTime 1 (8 / 10)) a
             else a, [])
          else (a, [])
  end.

(** The guard at the head of [drawVisualizer], lines 82-86: a frame is
    drawn only while the loop is active, the canvas is mounted and the
    analyser exists. *)
Definition frameRuns (st : State) : bool :=
  (isVisualizerActiveRef st && canvasRef st && audioContextRef st)%bool.

(** [formatTime], lines 400-405, for a finite [time].  [jsRem] is
    JavaScript's [%] on numbers (the quotient is truncated),
    [toString] the decimal form of an integer, [padStart2] is
    [padStart(2, '0')]. *)
Definition Ztrunc (r : R) : Z := if Rle_dec 0 r then Zfloor r else Zceil r.

Definition jsRem (a b : R) : R := (a - b * IZR (Ztrunc (a / b)))%R.

Definition toString (z : Z) : string := NilZero.string_of_int (Z.to_int z).

Definition padStart2 (s : string) : string :=
  match String.length s with
  | 0%nat => "00"
  | 1%nat => "0" ++ s
  | _ => s
  end.

Definition formatTime (time : R) : string :=
  if Req_dec_T time 0 then "0:00"
  else
    let minutes := Zfloor (time / 60) in
    let seconds := Zfloor (jsRem time 60) in
    toString minutes ++ ":" ++ padStart2 (toString seconds).

(** The state every handler is meant to keep: distinct ids, and an index
    that is [-1] or points into the playlist. *)
Definition wellFormed (st : State) : Prop :=
  distinctIds (songs st) /\
  (-1 <= currentSongIndex st < Z.of_nat (length (songs st)))%Z.

End Player.

(** * Properties *)

Module VisualizerFacts.
Import Visualizer.

(** ** The noise gate *)

Lemma noiseGate_below (m : R) : m < 10 -> noiseGate m = 0.
Proof.
  intros Hm. unfold noiseGate, NOISE_THRESHOLD.
  destruct (Rlt_dec m 10) as [_ | Hn]; [reflexivity | contradiction].
Qed.

Lemma noiseGate_above (m : R) :
  10 <= m -> noiseGate m = ((m - 10) / (255 - 10)) ^ 2.
Proof.
  intros Hm. unfold noiseGate, NOISE_THRESHOLD.
  destruct (Rlt_dec m 10) as [Hlt | _]; [lra | reflexivity].
Qed.

(** C7.  For a magnitude [m] in [[0, 255]] the gated value is [0] when
    [m <= 10] and [((m - 10) / (255 - 10))^2] when [m > 10]. *)
Theorem noiseGate_spec (m : R) :
  0 <= m <= 255 ->
  (m <= 10 -> noiseGate m = 0) /\
  (10 < m -> noiseGate m = ((m - 10) / (255 - 10)) ^ 2).
Proof.
  intros _. split; intros Hm.
  - destruct (Rle_lt_or_eq_dec m 10 Hm) as [Hlt | Heq].
    + now apply noiseGate_below.
    + rewrite noiseGate_above by lra. subst m.
      replace ((10 - 10) / (255 - 10)) with 0 by lra. simpl. ring.
  - apply noiseGate_above. lra.
Qed.

Lemma noiseGate_spec_witness :
  (10 <= 10 -> noiseGate 10 = 0) /\
  (10 < 10 -> noiseGate 10 = ((10 - 10) / (255 - 10)) ^ 2).
Proof. apply (noiseGate_spec 10). lra. Defined.

Lemma noiseGate_range (m : R) : 0 <= m <= 255 -> 0 <= noiseGate m <= 1.
Proof.
  intros [H0 H255]. destruct (Rlt_dec m 10) as [Hlt | Hge].
  - rewrite noiseGate_below by assumption. lra.
  - rewrite noiseGate_above by lra.
    set (u := (m - 10) / (255 - 10)).
    assert (Hu : 0 <= u <= 1) by (unfold u; lra).
    simpl. nra.
Qed.

(** ** The equaliser weight *)

Lemma eqWeight_range (freq : R) : 1 / 10 <= eqWeight freq <= 172 / 100.
Proof.
  unfold eqWeight.
  destruct (Rlt_dec freq 60) as [Hlo | Hlo];
  destruct (Rle_dec 200 freq) as [Hm1 | Hm1];
  try destruct (Rle_dec freq 4000) as [Hm2 | Hm2];
  destruct (Rlt_dec 6000 freq) as [Hhi | Hhi];
  try lra; cbv zeta.
  - pose proof (Rmax_l (1 / 10) ((freq - 20) / 40)).
    assert (Rmax (1 / 10) ((freq - 20) / 40) <= 1)
      by (apply Rmax_lub; lra).
    lra.
  - pose proof (Rmax_l 0 (12 / 10 - Rabs (freq - 1000) / 2000)).
    assert (Rmax 0 (12 / 10 - Rabs (freq - 1000) / 2000) <= 12 / 10).
    { apply Rmax_lub; [lra|]. pose proof (Rabs_pos (freq - 1000)). lra. }
    lra.
Qed.

Lemma eqWeight_treble (freq : R) : 6000 < freq -> eqWeight freq = 13 / 10.
Proof.
  intros H. unfold eqWeight.
  destruct (Rlt_dec freq 60); [lra|].
  destruct (Rle_dec 200 freq); [|lra].
  destruct (Rle_dec freq 4000); [lra|].
  destruct (Rlt_dec 6000 freq); lra.
Qed.

(** ** The point-building loop *)

Lemma INR_steps : INR steps = 180.
Proof. unfold steps. rewrite INR_IZR_INZ. reflexivity. Qed.

Lemma points_length dataArray ctxRate width height :
  length (points dataArray ctxRate width height) = 181%nat.
Proof. unfold points. now rewrite length_map, length_seq. Qed.

Lemma points_nth dataArray ctxRate width height (i : nat) :
  (i <= steps)%nat ->
  nth i (points dataArray ctxRate width height) origin
  = pointAt dataArray (sampleRateOf ctxRate) width height i.
Proof.
  intros Hi. unfold points.
  rewrite nth_indep with (d' := pointAt dataArray (sampleRateOf ctxRate)
                                   width height 0%nat)
    by (rewrite length_map, length_seq; lia).
  rewrite map_nth, seq_nth by lia. reflexivity.
Qed.

Lemma magnitudeAt_range dataArray index :
  Forall (fun v => (0 <= v <= 255)%Z) dataArray ->
  0 <= magnitudeAt dataArray index <= 255.
Proof.
  intros Hall. unfold magnitudeAt.
  destruct ((0 <=? index)%Z && (index <? Z.of_nat (length dataArray))%Z)%bool
    eqn:Hin; [|lra].
  apply andb_true_iff in Hin as [Hlo Hhi].
  apply Z.leb_le in Hlo. apply Z.ltb_lt in Hhi.
  rewrite Forall_forall in Hall.
  destruct (Hall (nth (Z.to_nat index) dataArray 0%Z)) as [H0 H255].
  { apply nth_In. lia. }
  split; apply IZR_le; assumption.
Qed.

Lemma pointAt_y_range dataArray sampleRate width height i :
  Forall (fun v => (0 <= v <= 255)%Z) dataArray ->
  0 <= height ->
  0 <= y (pointAt dataArray sampleRate width height i)
    <= 172 / 100 * (height * (25 / 100)).
Proof.
  intros Hall Hh. unfold pointAt; cbn [y].
  pose proof (noiseGate_range _
                (magnitudeAt_range dataArray
                   (binIndex sampleRate (freqAt i)) Hall)) as Hg.
  pose proof (eqWeight_range (freqAt i)) as Hw.
  set (g := noiseGate _) in *. set (w := eqWeight _) in *.
  assert (0 <= g * w <= 172 / 100) by nra.
  nra.
Qed.

Lemma pointAt_x_lt dataArray sampleRate width height (i j : nat) :
  0 < width -> (i < j)%nat ->
  x (pointAt dataArray sampleRate width height i)
  < x (pointAt dataArray sampleRate width height j).
Proof.
  intros Hw Hij. unfold pointAt; cbn [x]. unfold percentAt.
  rewrite INR_steps. apply lt_INR in Hij. nra.
Qed.

(** C1, as amended.  Whatever the snapshot (bytes in [[0, 255]]) and the
    sample rate, the loop yields exactly 181 points; their [x] strictly
    increases when the canvas width is positive; every [y] lies in
    [[0, 1.72 * (height * 0.25)]], the equaliser weight reaching up to
    1.72. *)
Theorem points_shape dataArray ctxRate width height :
  Forall (fun v => (0 <= v <= 255)%Z) dataArray ->
  0 <= height ->
  let pts := points dataArray ctxRate width height in
  length pts = 181%nat /\
  (0 < width ->
   forall i j : nat, (i < j < 181)%nat ->
     x (nth i pts origin) < x (nth j pts origin)) /\
  Forall (fun p => 0 <= y p <= 172 / 100 * (height * (25 / 100))) pts.
Proof.
  intros Hall Hh pts. split; [apply points_length|]. split.
  - intros Hw i j [Hij Hj]. unfold pts.
    rewrite !points_nth by (unfold steps; lia).
    now apply pointAt_x_lt.
  - unfold pts, points. rewrite Forall_forall. intros p Hp.
    apply in_map_iff in Hp as [i [<- _]].
    now apply pointAt_y_range.
Qed.

Lemma points_shape_witness :
  let pts := points [0%Z; 255%Z] None 400 240 in
  length pts = 181%nat /\
  x (nth 0 pts origin) < x (nth 180 pts origin) /\
  Forall (fun p => 0 <= y p <= 172 / 100 * (240 * (25 / 100))) pts.
Proof.
  intros pts.
  destruct (points_shape [0%Z; 255%Z] None 400 240) as [Hlen [Hx Hy]].
  - repeat constructor; lia.
  - lra.
  - split; [exact Hlen|]. split; [|exact Hy].
    apply Hx; [lra | lia].
Defined.

(** The last step ([i = 180]) is the 16 kHz end of the log scale. *)
Lemma freqAt_last : freqAt steps = 16000.
Proof.
  unfold freqAt, percentAt, logMin, logMax, minFreq, maxFreq.
  rewrite INR_steps.
  replace (ln 20 + (ln 16000 - ln 20) * (180 / 180)) with (ln 16000) by field.
  apply exp_ln. lra.
Qed.

Lemma binIndex_last : binIndex 44100 16000 = 1486%Z.
Proof. unfold binIndex, fftSize. apply Zfloor_eq. lra. Qed.

Lemma magnitudeAt_fullScale (index : Z) :
  (0 <= index < 2048)%Z -> magnitudeAt fullScale index = 255.
Proof.
  intros Hi. unfold magnitudeAt, fullScale. rewrite repeat_length.
  replace ((0 <=? index)%Z && (index <? Z.of_nat 2048)%Z)%bool with true.
  - f_equal. apply (repeat_spec 2048). apply nth_In.
    rewrite repeat_length. lia.
  - symmetry. apply andb_true_iff. split; [apply Z.leb_le | apply Z.ltb_lt]; lia.
Qed.

Lemma pointAt_fullScale_last :
  y (pointAt fullScale 44100 400 240 steps) = 78.
Proof.
  unfold pointAt; cbn [y]. rewrite freqAt_last, binIndex_last.
  rewrite magnitudeAt_fullScale by lia.
  rewrite noiseGate_above by lra. rewrite eqWeight_treble by lra.
  field.
Qed.

(** C1, as stated, fails: at 44.1 kHz on the 400x240 canvas a full-scale
    snapshot puts the last point at [y = 78], above [height * 0.25 = 60]. *)
Lemma points_exceed_quarter_height :
  let pts := points fullScale (Some 44100) 400 240 in
  y (nth 180 pts origin) = 78 /\
  ~ Forall (fun p => 0 <= y p <= 240 * (25 / 100)) pts.
Proof.
  intros pts.
  assert (Hy : y (nth 180 pts origin) = 78).
  { unfold pts. rewrite points_nth by (unfold steps; lia).
    unfold sampleRateOf. destruct (Req_dec_T 44100 0) as [E | _]; [lra|].
    apply pointAt_fullScale_last. }
  split; [exact Hy|]. intros Hall. rewrite Forall_forall in Hall.
  assert (Hin : In (nth 180 pts origin) pts).
  { apply nth_In. unfold pts. rewrite points_length. lia. }
  specialize (Hall _ Hin). lra.
Qed.

(** ** Smoothing *)

Lemma setY_length ps i v : length (setY ps i v) = length ps.
Proof.
  revert i; induction ps as [|p ps IH]; intros [|i]; simpl; auto.
Qed.

Lemma setY_nth_same ps i v :
  (i < length ps)%nat ->
  nth i (setY ps i v) origin = mkPoint (x (nth i ps origin)) v.
Proof.
  revert i; induction ps as [|p ps IH]; intros [|i] Hi; simpl in *;
    try lia; auto.
  apply IH. lia.
Qed.

Lemma setY_nth_other ps i j v :
  j <> i -> nth j (setY ps i v) origin = nth j ps origin.
Proof.
  revert i j; induction ps as [|p ps IH]; intros [|i] [|j] Hij; simpl;
    auto; try contradiction.
Qed.

Lemma setY_x ps i j v : x (nth j (setY ps i v) origin) = x (nth j ps origin).
Proof.
  destruct (Nat.eq_dec j i) as [-> | Hne].
  - destruct (Nat.lt_ge_cases i (length ps)) as [Hi | Hi].
    + now rewrite setY_nth_same.
    + rewrite !nth_overflow; auto. now rewrite setY_length.
  - now rewrite setY_nth_other.
Qed.

Lemma sweep_S k ps : sweep (S k) ps = smoothStep (sweep k ps) (S k).
Proof. unfold sweep. now rewrite seq_S, fold_left_app. Qed.

Lemma sweep_length k ps : length (sweep k ps) = length ps.
Proof.
  induction k as [|k IH]; [reflexivity|].
  rewrite sweep_S. unfold smoothStep. now rewrite setY_length.
Qed.

Lemma sweep_x k ps j : x (nth j (sweep k ps) origin) = x (nth j ps origin).
Proof.
  induction k as [|k IH]; [reflexivity|].
  rewrite sweep_S. unfold smoothStep. now rewrite setY_x.
Qed.

(** Entries beyond the loop counter are still the original ones. *)
Lemma sweep_untouched k ps j :
  (k < j)%nat -> nth j (sweep k ps) origin = nth j ps origin.
Proof.
  induction k as [|k IH]; intros Hj; [reflexivity|].
  rewrite sweep_S. unfold smoothStep.
  rewrite setY_nth_other by lia. apply IH. lia.
Qed.

Lemma sweep_first k ps : nth 0 (sweep k ps) origin = nth 0 ps origin.
Proof.
  induction k as [|k IH]; [reflexivity|].
  rewrite sweep_S. unfold smoothStep. now rewrite setY_nth_other by lia.
Qed.

(** Entries already written are not written again. *)
Lemma sweep_stable k k' ps j :
  (j <= k <= k')%nat ->
  nth j (sweep k' ps) origin = nth j (sweep k ps) origin.
Proof.
  intros [Hj Hk]. induction Hk as [|k' Hk IH]; [reflexivity|].
  rewrite sweep_S. unfold smoothStep.
  rewrite setY_nth_other by lia. exact IH.
Qed.

Lemma sweep_written k ps :
  (S k < length ps)%nat ->
  y (nth k (sweep k ps) origin)
  = if Nat.eqb k 0 then y (nth 0 ps origin)
    else (y (nth (k - 1) (sweep k ps) origin)
          + y (nth k ps origin) + y (nth (k + 1) ps origin)) / 3.
Proof.
  intros Hk. destruct k as [|k]; [reflexivity|].
  cbn [Nat.eqb]. rewrite sweep_S. unfold smoothStep.
  rewrite setY_nth_same by (rewrite sweep_length; lia).
  cbn [y]. rewrite setY_nth_other by lia.
  rewrite (sweep_untouched k ps (S k)), (sweep_untouched k ps (S k + 1))
    by lia.
  reflexivity.
Qed.

Lemma smoothPass_sweep ps : smoothPass ps = sweep (length ps - 2) ps.
Proof. reflexivity. Qed.

Lemma smoothPass_length ps : length (smoothPass ps) = length ps.
Proof. rewrite smoothPass_sweep. apply sweep_length. Qed.

Lemma smoothPass_x ps j :
  x (nth j (smoothPass ps) origin) = x (nth j ps origin).
Proof. rewrite smoothPass_sweep. apply sweep_x. Qed.

Lemma smoothPass_first ps :
  nth 0 (smoothPass ps) origin = nth 0 ps origin.
Proof. rewrite smoothPass_sweep. apply sweep_first. Qed.

Lemma smoothPass_last ps :
  nth (length ps - 1) (smoothPass ps) origin
  = nth (length ps - 1) ps origin.
Proof.
  rewrite smoothPass_sweep.
  destruct (Nat.le_gt_cases (length ps) 1) as [Hs | Hs].
  - replace (length ps - 2)%nat with 0%nat by lia. reflexivity.
  - apply sweep_untouched. lia.
Qed.

Lemma smoothPass_interior ps i :
  (1 <= i < length ps - 1)%nat ->
  y (nth i (smoothPass ps) origin)
  = (y (nth (i - 1) (smoothPass ps) origin)
     + y (nth i ps origin) + y (nth (i + 1) ps origin)) / 3.
Proof.
  intros Hi. rewrite smoothPass_sweep.
  rewrite (sweep_stable i (length ps - 2)) by lia.
  rewrite (sweep_stable i (length ps - 2) ps (i - 1)) by lia.
  rewrite sweep_written by lia.
  destruct i as [|i]; [lia|]. reflexivity.
Qed.

(** C2, as amended.  A pass keeps the length, every [x] and the two
    endpoint [y] values; an interior [y] becomes the mean of the left
    neighbour's [y] as this pass has just rewritten it, the point's own
    [y] and the right neighbour's [y], both as the pass found them.  The
    smoothing is three such passes. *)
Theorem smoothPass_in_place_mean (ps : list Point) :
  (smooth ps = smoothPass (smoothPass (smoothPass ps))) /\
  length (smoothPass ps) = length ps /\
  (forall j, x (nth j (smoothPass ps) origin) = x (nth j ps origin)) /\
  y (nth 0 (smoothPass ps) origin) = y (nth 0 ps origin) /\
  y (nth (length ps - 1) (smoothPass ps) origin)
    = y (nth (length ps - 1) ps origin) /\
  (forall i, (1 <= i < length ps - 1)%nat ->
     y (nth i (smoothPass ps) origin)
     = (y (nth (i - 1) (smoothPass ps) origin)
        + y (nth i ps origin) + y (nth (i + 1) ps origin)) / 3).
Proof.
  split; [reflexivity|].
  split; [apply smoothPass_length|].
  split; [apply smoothPass_x|].
  split; [now rewrite smoothPass_first|].
  split; [now rewrite smoothPass_last|].
  apply smoothPass_interior.
Qed.

Lemma smoothPass_in_place_mean_witness :
  y (nth 2 (smoothPass spike4) origin)
  = (y (nth (2 - 1) (smoothPass spike4) origin)
     + y (nth 2 spike4 origin) + y (nth (2 + 1) spike4 origin)) / 3.
Proof.
  destruct (smoothPass_in_place_mean spike4) as [_ [_ [_ [_ [_ Hmean]]]]].
  apply (Hmean 2%nat). cbn. lia.
Defined.

Ltac run_smoothing :=
  cbv [smooth passes Nat.iter nat_rect smoothPass sweep fold_left seq length
       Nat.sub Nat.add smoothStep setY nth x y origin spike4 spike5].

(** C2, as stated, fails: on [y = 9, 0, 0, 0] one pass leaves [1] at index
    2, whose neighbourhood at the start of the pass was all [0]. *)
Lemma smoothPass_reads_updated_left :
  y (nth 2 (smoothPass spike4) origin) = 1 /\
  y (nth 2 (smoothPass spike4) origin)
  <> (y (nth 1 spike4 origin) + y (nth 2 spike4 origin)
      + y (nth 3 spike4 origin)) / 3.
Proof. run_smoothing. split; lra. Qed.

(** *** No overshoot *)

(** A pass keeps index [i] inside any interval that holds the entries up
    to [i + 1]. *)
Lemma smoothPass_hull (lo hi : R) ps i :
  (i < length ps)%nat ->
  (forall j, (j <= i + 1)%nat -> (j < length ps)%nat ->
     lo <= y (nth j ps origin) <= hi) ->
  lo <= y (nth i (smoothPass ps) origin) <= hi.
Proof.
  induction i as [|i IH]; intros Hi Hwin.
  - rewrite smoothPass_first. apply Hwin; lia.
  - destruct (Nat.eq_dec (S i) (length ps - 1)) as [Hlast | Hint].
    + rewrite Hlast, smoothPass_last, <- Hlast. apply Hwin; lia.
    + rewrite smoothPass_interior by lia.
      replace (S i - 1)%nat with i by lia.
      assert (Hl : lo <= y (nth i (smoothPass ps) origin) <= hi).
      { apply IH; [lia|]. intros j Hj Hjl. apply Hwin; lia. }
      assert (Hc : lo <= y (nth (S i) ps origin) <= hi)
        by (apply Hwin; lia).
      assert (Hr : lo <= y (nth (S i + 1) ps origin) <= hi)
        by (apply Hwin; lia).
      lra.
Qed.

Lemma smooth_hull (lo hi : R) ps i :
  (i < length ps)%nat ->
  (forall j, (j <= i + 3)%nat -> (j < length ps)%nat ->
     lo <= y (nth j ps origin) <= hi) ->
  lo <= y (nth i (smooth ps) origin) <= hi.
Proof.
  intros Hi Hwin. unfold smooth, passes. cbn [Nat.iter nat_rect].
  apply smoothPass_hull; [now rewrite !smoothPass_length|].
  intros j1 Hj1 Hl1. rewrite !smoothPass_length in Hl1.
  apply smoothPass_hull; [now rewrite smoothPass_length|].
  intros j2 Hj2 Hl2. rewrite smoothPass_length in Hl2.
  apply smoothPass_hull; [assumption|].
  intros j3 Hj3 Hl3. apply Hwin; lia.
Qed.

Lemma reach_In ps i j :
  (j <= i + 3)%nat -> (j < length ps)%nat ->
  In (y (nth j ps origin)) (reach ps i).
Proof.
  intros Hj Hl. unfold reach. apply in_map.
  replace (nth j ps origin) with (nth j (firstn (i + 4) ps) origin).
  - apply nth_In. rewrite length_firstn. lia.
  - rewrite nth_firstn.
    destruct (Nat.ltb_spec j (i + 4)); [reflexivity | lia].
Qed.

(** C3, as amended.  After the three passes an interior point's [y] lies
    between the minimum and the maximum of the original [y] values of the
    points from the first one up to three places to its right (in the
    exact arithmetic of this model). *)
Theorem smooth_no_overshoot (ps : list Point) (i : nat) :
  (1 <= i < length ps - 1)%nat ->
  MinRlist (reach ps i) <= y (nth i (smooth ps) origin)
  <= MaxRlist (reach ps i).
Proof.
  intros Hi. apply smooth_hull; [lia|].
  intros j Hj Hl. split.
  - apply MinRlist_P1. now apply reach_In.
  - apply MaxRlist_P1. now apply reach_In.
Qed.

Lemma smooth_no_overshoot_witness :
  MinRlist (reach spike5 3) <= y (nth 3 (smooth spike5) origin)
  <= MaxRlist (reach spike5 3).
Proof. apply (smooth_no_overshoot spike5 3). simpl. lia. Defined.

(** C3, as stated, fails: in [y = 9, 0, 0, 0, 0] the window of index 3 is
    all [0], and the three passes leave [268/243] there. *)
Lemma smooth_leaves_window3 :
  MaxRlist (window3 spike5 3) = 0 /\
  y (nth 3 (smooth spike5) origin) = 268 / 243 /\
  ~ (MinRlist (window3 spike5 3) <= y (nth 3 (smooth spike5) origin)
     <= MaxRlist (window3 spike5 3)).
Proof.
  assert (Hmax : MaxRlist (window3 spike5 3) = 0).
  { cbv [window3 spike5 nth Nat.sub Nat.add y MaxRlist].
    rewrite !(Rmax_left 0 0) by lra. reflexivity. }
  assert (Hy : y (nth 3 (smooth spike5) origin) = 268 / 243).
  { run_smoothing. field. }
  split; [exact Hmax|]. split; [exact Hy|].
  rewrite Hmax, Hy. lra.
Qed.

(** ** The path *)

Lemma pen_app start cur c1 c2 :
  pen start cur (c1 ++ c2)
  = pen (fst (pen start cur c1)) (snd (pen start cur c1)) c2.
Proof.
  revert start cur; induction c1 as [|c c1 IH]; intros start cur;
    [reflexivity|].
  destruct c; simpl; apply IH.
Qed.

Lemma segments_app start cur c1 c2 :
  segments start cur (c1 ++ c2)
  = segments start cur c1
    ++ segments (fst (pen start cur c1)) (snd (pen start cur c1)) c2.
Proof.
  revert start cur; induction c1 as [|c c1 IH]; intros start cur;
    [reflexivity|].
  destruct c; simpl; rewrite ?IH; reflexivity.
Qed.

Lemma pen_bottomCurves_start centerY sp idxs start cur :
  fst (pen start cur (map (bottomCurve centerY sp) idxs)) = start.
Proof.
  revert cur; induction idxs as [|i idxs IH]; intros cur; [reflexivity|].
  simpl. apply IH.
Qed.

Lemma pen_topCurves_start centerY sp idxs start cur :
  fst (pen start cur (map (topCurve centerY sp) idxs)) = start.
Proof.
  revert cur; induction idxs as [|i idxs IH]; intros cur; [reflexivity|].
  simpl. apply IH.
Qed.

(** The upper calls leave the pen at [(width, centerY)], so the path's
    segments are the upper contour followed by the lower one. *)
Lemma path_segments width centerY sp cmds :
  path width centerY sp = Some cmds ->
  segments (0, 0) (0, 0) cmds
  = upperContour width centerY sp ++ lowerContour width centerY sp.
Proof.
  destruct sp as [|p sp]; [discriminate|]. intros [= <-].
  cbn [segments]. rewrite segments_app. f_equal.
  unfold lowerContour. unfold upperCmds at 1 2.
  rewrite !pen_app. cbn [pen fst snd].
  now rewrite pen_topCurves_start.
Qed.

Lemma bezier_ge (m a c b t : R) :
  0 <= t <= 1 -> m <= a -> m <= c -> m <= b -> m <= bezier a c b t.
Proof.
  intros [Ht0 Ht1] Ha Hc Hb. unfold bezier.
  assert (H1 : 0 <= (1 - t) ^ 2 * (a - m))
    by (apply Rmult_le_pos; [apply pow2_ge_0 | lra]).
  assert (H2 : 0 <= 2 * (1 - t) * t * (c - m)).
  { apply Rmult_le_pos; [|lra].
    apply Rmult_le_pos; [|lra]. lra. }
  assert (H3 : 0 <= t ^ 2 * (b - m))
    by (apply Rmult_le_pos; [apply pow2_ge_0 | lra]).
  replace ((1 - t) ^ 2 * a + 2 * (1 - t) * t * c + t ^ 2 * b)
    with (m + ((1 - t) ^ 2 * (a - m) + 2 * (1 - t) * t * (c - m)
               + t ^ 2 * (b - m))) by ring.
  lra.
Qed.

Lemma linear_ge (m a b t : R) :
  0 <= t <= 1 -> m <= a -> m <= b -> m <= linear a b t.
Proof. intros [Ht0 Ht1] Ha Hb. unfold linear. nra. Qed.

Lemma onSegment_rightOf (m : R) (s : Segment) (px py : R) :
  rightOf m s -> onSegment s (px, py) -> m <= px.
Proof.
  intros Hs [t [Ht Hq]]. destruct s as [a b | a c b]; cbn in Hs, Hq;
    injection Hq as Hx _; subst px.
  - destruct Hs. now apply linear_ge.
  - destruct Hs as [? [? ?]]. now apply bezier_ge.
Qed.

Lemma bottomCurves_rightOf (m centerY : R) sp idxs start cur :
  m <= fst cur ->
  (forall i, In i idxs ->
     m <= x (nth i sp origin) /\
     m <= (x (nth i sp origin) + x (nth (i - 1) sp origin)) / 2) ->
  forall s, In s (segments start cur (map (bottomCurve centerY sp) idxs)) ->
    rightOf m s.
Proof.
  revert cur; induction idxs as [|i idxs IH]; intros cur Hcur Hidx s Hin;
    [contradiction|].
  cbn [map bottomCurve segments] in Hin. destruct Hin as [<- | Hin].
  - destruct (Hidx i (or_introl eq_refl)) as [Hc He]. cbn. auto.
  - apply IH with (cur := ((x (nth i sp origin)
                            + x (nth (i - 1) sp origin)) / 2,
                           centerY + (y (nth i sp origin)
                                      + y (nth (i - 1) sp origin)) / 2));
      auto.
    + cbn. apply (Hidx i (or_introl eq_refl)).
    + intros j Hj. apply Hidx. now right.
Qed.

(** The lower contour is the run of mirrored curves for
    [i = length - 1 .. 1], then the closing line from the last midpoint
    back to [(0, centerY)]. *)
Lemma lowerContour_split width centerY sp :
  (2 <= length sp)%nat ->
  lowerContour width centerY sp
  = segments (0, centerY) (width, centerY)
      (map (bottomCurve centerY sp) (rev (seq 1 (length sp - 1))))
    ++ [Line ((x (nth 1 sp origin) + x (nth 0 sp origin)) / 2,
              centerY + (y (nth 1 sp origin) + y (nth 0 sp origin)) / 2)
             (0, centerY)].
Proof.
  intros Hn. unfold lowerContour, lowerCmds.
  rewrite segments_app. f_equal.
  rewrite pen_bottomCurves_start.
  replace (length sp - 1)%nat with (S (length sp - 2)) by lia.
  cbn [seq rev]. rewrite map_app, pen_app. reflexivity.
Qed.

(** The first curve of the upper contour bulges by the first point's [y];
    the closing line of the lower contour, underneath it, is straight. *)
Lemma left_cap_not_mirrored (width centerY : R) (sp : list Point) :
  (2 <= length sp)%nat ->
  x (nth 0 sp origin) = 0 ->
  increasingX sp ->
  x (nth 1 sp origin) / 2 <= width ->
  y (nth 0 sp origin) <> 0 ->
  let px := x (nth 1 sp origin) / 8 in
  let d := y (nth 0 sp origin) / 2
           + (y (nth 0 sp origin) + y (nth 1 sp origin)) / 8 in
  onContour (upperContour width centerY sp) (px, centerY - d) /\
  ~ onContour (lowerContour width centerY sp) (px, centerY + d).
Proof.
  intros Hn Hx0 Hinc Hw Hy0 px d.
  assert (Hx1 : 0 < x (nth 1 sp origin)).
  { rewrite <- Hx0. apply Hinc. lia. }
  split.
  - exists (Quad (0, centerY)
                 (x (nth 0 sp origin), centerY - y (nth 0 sp origin))
                 ((x (nth 0 sp origin) + x (nth 1 sp origin)) / 2,
                  centerY - (y (nth 0 sp origin)
                             + y (nth 1 sp origin)) / 2)).
    split.
    + unfold upperContour, upperCmds.
      replace (length sp - 1)%nat with (S (length sp - 2)) by lia.
      cbn [seq map app segments topCurve Nat.add]. now left.
    + exists (1 / 2). split; [lra|].
      unfold pointOn, bezier, px, d. cbn [fst snd]. rewrite Hx0.
      f_equal; field.
  - intros [s [Hin Hon]]. rewrite lowerContour_split in Hin by assumption.
    apply in_app_or in Hin as [Hin | [<- | []]].
    + assert (Hr : rightOf (x (nth 1 sp origin) / 2) s).
      { revert Hin. apply bottomCurves_rightOf; [exact Hw|].
        intros i Hi. apply in_rev, in_seq in Hi.
        assert (H1i : x (nth 1 sp origin) <= x (nth i sp origin)).
        { destruct (Nat.eq_dec i 1) as [-> | Hne]; [lra|].
          left. apply Hinc. lia. }
        assert (H0i : 0 <= x (nth (i - 1) sp origin)).
        { rewrite <- Hx0.
          destruct (Nat.eq_dec (i - 1) 0) as [-> | Hne]; [lra|].
          left. apply Hinc. lia. }
        lra. }
      pose proof (onSegment_rightOf _ _ _ _ Hr Hon). unfold px in *. lra.
    + destruct Hon as [t [Ht Hq]]. unfold pointOn, linear in Hq.
      cbn [fst snd] in Hq. injection Hq as Hqx Hqy.
      unfold px, d in *. rewrite Hx0 in *.
      assert (Ht' : 1 - t = 1 / 4) by nra.
      replace t with (3 / 4) in Hqy by lra. lra.
Qed.

Lemma smooth_length ps : length (smooth ps) = length ps.
Proof.
  unfold smooth, passes. cbn [Nat.iter nat_rect].
  now rewrite !smoothPass_length.
Qed.

Lemma smooth_x ps j : x (nth j (smooth ps) origin) = x (nth j ps origin).
Proof.
  unfold smooth, passes. cbn [Nat.iter nat_rect].
  now rewrite !smoothPass_x.
Qed.

Lemma smooth_first ps : nth 0 (smooth ps) origin = nth 0 ps origin.
Proof.
  unfold smooth, passes. cbn [Nat.iter nat_rect].
  now rewrite !smoothPass_first.
Qed.

Lemma smooth_increasingX ps : increasingX ps -> increasingX (smooth ps).
Proof.
  intros Hinc i j Hij. rewrite smooth_length in Hij.
  rewrite !smooth_x. now apply Hinc.
Qed.

Lemma mirrorSymmetric_left_cap (width centerY : R) (sp : list Point) :
  (2 <= length sp)%nat ->
  x (nth 0 sp origin) = 0 ->
  increasingX sp ->
  x (nth 1 sp origin) / 2 <= width ->
  y (nth 0 sp origin) <> 0 ->
  ~ mirrorSymmetric width centerY sp.
Proof.
  intros Hn Hx0 Hinc Hw Hy0 Hsym.
  destruct (left_cap_not_mirrored width centerY sp Hn Hx0 Hinc Hw Hy0)
    as [Hup Hlow].
  apply Hlow, Hsym, Hup.
Qed.

(** The first step ([i = 0]) is the 20 Hz end of the log scale. *)
Lemma freqAt_first : freqAt 0 = 20.
Proof.
  unfold freqAt, percentAt, logMin, logMax, minFreq, maxFreq.
  rewrite INR_steps. cbn [INR].
  replace (ln 20 + (ln 16000 - ln 20) * (0 / 180)) with (ln 20) by field.
  apply exp_ln. lra.
Qed.

Lemma binIndex_first : binIndex 44100 20 = 1%Z.
Proof. unfold binIndex, fftSize. apply Zfloor_eq. lra. Qed.

Lemma eqWeight_first : eqWeight 20 = 1 / 10.
Proof.
  unfold eqWeight.
  destruct (Rlt_dec 20 60); [|lra].
  destruct (Rle_dec 200 20); [lra|].
  destruct (Rlt_dec 6000 20); [lra|].
  apply Rmax_left. lra.
Qed.

Lemma pointAt_fullScale_first :
  pointAt fullScale 44100 400 240 0 = mkPoint 0 6.
Proof.
  unfold pointAt. rewrite freqAt_first, binIndex_first.
  rewrite magnitudeAt_fullScale by lia.
  rewrite noiseGate_above by lra. rewrite eqWeight_first.
  unfold percentAt. rewrite INR_steps. cbn [INR]. f_equal; field.
Qed.

Lemma points_increasingX dataArray ctxRate width height :
  0 < width -> increasingX (points dataArray ctxRate width height).
Proof.
  intros Hw i j Hij. rewrite points_length in Hij.
  rewrite !points_nth by (unfold steps; lia).
  apply pointAt_x_lt; [assumption | lia].
Qed.

(** C4 fails on the code.  For the full-scale snapshot at 44.1 kHz on the
    400x240 canvas the first smoothed point is [(0, 6)]; the upper contour
    opens with a curve pulled towards [(0, centerY - 6)], the lower one
    closes with a straight line, and the upper point at
    [px = x1 / 8], offset [y0/2 + (y0 + y1)/8], has no mirror image below. *)
Theorem drawVisualizer_mirror_broken :
  let sp := smooth (points fullScale (Some 44100) 400 240) in
  let px := x (nth 1 sp origin) / 8 in
  let d := y (nth 0 sp origin) / 2
           + (y (nth 0 sp origin) + y (nth 1 sp origin)) / 8 in
  drawVisualizer fullScale (Some 44100) 400 240 = path 400 (240 / 2) sp /\
  nth 0 sp origin = mkPoint 0 6 /\
  onContour (upperContour 400 (240 / 2) sp) (px, 240 / 2 - d) /\
  ~ onContour (lowerContour 400 (240 / 2) sp) (px, 240 / 2 + d) /\
  ~ mirrorSymmetric 400 (240 / 2) sp.
Proof.
  intros sp px d.
  assert (Hrate : sampleRateOf (Some 44100) = 44100).
  { unfold sampleRateOf. destruct (Req_dec_T 44100 0); lra. }
  assert (H0 : nth 0 sp origin = mkPoint 0 6).
  { unfold sp. rewrite smooth_first, points_nth by (unfold steps; lia).
    rewrite Hrate. apply pointAt_fullScale_first. }
  assert (Hn : (2 <= length sp)%nat).
  { unfold sp. rewrite smooth_length, points_length. lia. }
  assert (Hinc : increasingX sp).
  { apply smooth_increasingX, points_increasingX. lra. }
  assert (Hx0 : x (nth 0 sp origin) = 0) by now rewrite H0.
  assert (Hy0 : y (nth 0 sp origin) <> 0) by (rewrite H0; cbn; lra).
  assert (Hw : x (nth 1 sp origin) / 2 <= 400).
  { unfold sp. rewrite smooth_x, points_nth by (unfold steps; lia).
    unfold pointAt, percentAt. cbn [x]. rewrite INR_steps. cbn [INR]. lra. }
  split; [reflexivity|]. split; [exact H0|].
  destruct (left_cap_not_mirrored 400 (240 / 2) sp Hn Hx0 Hinc Hw Hy0)
    as [Hup Hlow].
  split; [exact Hup|]. split; [exact Hlow|].
  now apply mirrorSymmetric_left_cap.
Qed.

(** *** Where the two contours do mirror each other *)

Lemma topCurves_segments centerY sp start (a k : nat) cur :
  segments start cur (map (topCurve centerY sp) (seq a k))
  = map (fun i => if Nat.eqb i a
                  then Quad cur (upperControl centerY sp i)
                            (upperMid centerY sp i (i + 1))
                  else upperCurve centerY sp i)
        (seq a k).
Proof.
  revert a cur; induction k as [|k IH]; intros a cur; [reflexivity|].
  cbn [seq map topCurve segments]. rewrite Nat.eqb_refl. f_equal.
  rewrite IH. apply map_ext_in. intros i Hi. apply in_seq in Hi.
  destruct (Nat.eqb_spec i (S a)) as [-> | Hne].
  - destruct (Nat.eqb_spec (S a) a) as [E | _]; [lia|].
    unfold upperCurve. replace (S a - 1)%nat with a by lia. reflexivity.
  - destruct (Nat.eqb_spec i a) as [E | _]; [lia | reflexivity].
Qed.

Lemma bottomCurves_segments centerY sp start (k : nat) cur :
  segments start cur (map (bottomCurve centerY sp) (rev (seq 1 k)))
  = map (fun i => if Nat.eqb i k
                  then Quad cur (lowerControl centerY sp i)
                            (lowerMid centerY sp i (i - 1))
                  else lowerCurve centerY sp i)
        (rev (seq 1 k)).
Proof.
  revert cur; induction k as [|k IH]; intros cur; [reflexivity|].
  rewrite seq_S, rev_app_distr. cbn [rev app map Nat.add bottomCurve segments].
  rewrite Nat.eqb_refl. f_equal.
  rewrite IH. apply map_ext_in. intros i Hi. apply in_rev, in_seq in Hi.
  destruct (Nat.eqb_spec i k) as [-> | Hne].
  - destruct (Nat.eqb_spec k (S k)) as [E | _]; [lia|].
    unfold lowerCurve. replace (k + 1)%nat with (S k) by lia. reflexivity.
  - destruct (Nat.eqb_spec i (S k)) as [E | _]; [lia | reflexivity].
Qed.

Lemma bezier_reverse (a c b t : R) : bezier b c a (1 - t) = bezier a c b t.
Proof. unfold bezier. ring. Qed.

(** Between the first and the last midpoint the code does what C4 says:
    for [1 <= i <= length - 2] the curve the "Top" loop draws for [i] and
    the curve the "Bottom" loop draws for [i] are on the two contours and
    are mirror images about [centerY], traversed in opposite directions. *)
Theorem interior_curves_mirrored (width centerY : R) (sp : list Point)
    (i : nat) :
  (1 <= i <= length sp - 2)%nat ->
  In (upperCurve centerY sp i) (upperContour width centerY sp) /\
  In (lowerCurve centerY sp i) (lowerContour width centerY sp) /\
  (forall t : R,
     fst (pointOn (lowerCurve centerY sp i) (1 - t))
     = fst (pointOn (upperCurve centerY sp i) t) /\
     snd (pointOn (lowerCurve centerY sp i) (1 - t)) - centerY
     = centerY - snd (pointOn (upperCurve centerY sp i) t)).
Proof.
  intros Hi. split; [|split].
  - unfold upperContour, upperCmds. rewrite segments_app.
    apply in_or_app. left. rewrite topCurves_segments.
    apply in_map_iff. exists i. split; [|apply in_seq; lia].
    destruct (Nat.eqb_spec i 0) as [E | _]; [lia | reflexivity].
  - rewrite lowerContour_split by lia. apply in_or_app. left.
    rewrite bottomCurves_segments.
    apply in_map_iff. exists i. split; [|rewrite <- in_rev; apply in_seq; lia].
    destruct (Nat.eqb_spec i (length sp - 1)) as [E | _];
      [lia | reflexivity].
  - intros t. unfold lowerCurve, upperCurve, pointOn.
    replace (i + 1 - 1)%nat with i by lia.
    replace (i - 1 + 1)%nat with i by lia.
    cbn [fst snd lowerMid upperMid lowerControl upperControl].
    split.
    + rewrite <- (bezier_reverse _ _ _ t). unfold bezier. field.
    + unfold bezier. field.
Qed.

Lemma interior_curves_mirrored_witness :
  In (upperCurve 2 spike4 1) (upperContour 3 2 spike4) /\
  In (lowerCurve 2 spike4 1) (lowerContour 3 2 spike4) /\
  (forall t : R,
     fst (pointOn (lowerCurve 2 spike4 1) (1 - t))
     = fst (pointOn (upperCurve 2 spike4 1) t) /\
     snd (pointOn (lowerCurve 2 spike4 1) (1 - t)) - 2
     = 2 - snd (pointOn (upperCurve 2 spike4 1) t)).
Proof. apply (interior_curves_mirrored 3 2 spike4 1). cbn. lia. Defined.

End VisualizerFacts.


Module PlayerFacts.
Import Player.

Close Scope R_scope.
Open Scope Z_scope.

(** ** Lists of songs *)

Lemma findIndexFrom_found (f : Song -> bool) l (k : nat) s i :
  nth_error l k = Some s -> f s = true ->
  (forall j s', (j < k)%nat -> nth_error l j = Some s' -> f s' = false) ->
  findIndexFrom f l i = i + Z.of_nat k.
Proof.
  revert k i; induction l as [|a l IH]; intros [|k] i Hk Hf Hbefore;
    try discriminate.
  - cbn in Hk. injection Hk as ->. cbn. rewrite Hf. lia.
  - cbn in Hk. cbn [findIndexFrom].
    rewrite (Hbefore 0%nat a) by (cbn; auto; lia).
    rewrite (IH k (i + 1)); auto; [lia|].
    intros j s' Hj Hs'. apply (Hbefore (S j)); [lia | exact Hs'].
Qed.

Lemma distinctIds_index l (j k : nat) s s' :
  distinctIds l ->
  nth_error l j = Some s' -> nth_error l k = Some s -> id s' = id s ->
  j = k.
Proof.
  unfold distinctIds. intros Hnd Hj Hk Hid.
  assert (Hjl : (j < length (map id l))%nat)
    by (rewrite length_map; apply nth_error_Some; congruence).
  apply (proj1 (NoDup_nth_error (map id l)) Hnd j k Hjl).
  rewrite !nth_error_map, Hj, Hk. cbn. now f_equal.
Qed.

(** With distinct ids, [findIndex] on a song's id is that song's index. *)
Lemma findIndex_distinct l (k : nat) s :
  distinctIds l -> nth_error l k = Some s ->
  findIndex (fun s' => String.eqb (id s') (id s)) l = Z.of_nat k.
Proof.
  intros Hnd Hk. unfold findIndex.
  rewrite (findIndexFrom_found _ l k s 0 Hk); [lia | apply String.eqb_refl |].
  intros j s' Hj Hs'. apply String.eqb_neq. intros Hid.
  pose proof (distinctIds_index l j k s s' Hnd Hs' Hk Hid). lia.
Qed.

Lemma filter_keeps_all (id0 : string) l :
  ~ In id0 (map id l) ->
  filter (fun s' => negb (String.eqb (id s') id0)) l = l.
Proof.
  induction l as [|a l IH]; intros Hnot; [reflexivity|].
  cbn [filter]. destruct (String.eqb_spec (id a) id0) as [E | _].
  - exfalso. apply Hnot. left. exact E.
  - cbn [negb]. f_equal. apply IH. intros Hin. apply Hnot. now right.
Qed.

(** With distinct ids, filtering a song's id out removes that one song. *)
Lemma filter_distinct l (k : nat) s :
  distinctIds l -> nth_error l k = Some s ->
  filter (fun s' => negb (String.eqb (id s') (id s))) l = removeAt k l.
Proof.
  unfold distinctIds, removeAt.
  revert k; induction l as [|a l IH]; intros [|k] Hnd Hk; try discriminate;
    cbn in Hk; cbn [map] in Hnd; apply NoDup_cons_iff in Hnd as [Hna Hnd].
  - injection Hk as ->. cbn [filter firstn skipn app].
    rewrite String.eqb_refl. cbn [negb]. now apply filter_keeps_all.
  - cbn [filter firstn skipn app].
    destruct (String.eqb_spec (id a) (id s)) as [E | _].
    + exfalso. apply Hna. rewrite E. apply in_map.
      eapply nth_error_In; eassumption.
    + cbn [negb]. f_equal. now apply IH.
Qed.

Lemma removeAt_before l (k j : nat) :
  (j < k)%nat -> (k < length l)%nat ->
  nth_error (removeAt k l) j = nth_error l j.
Proof.
  intros Hj Hk. unfold removeAt.
  rewrite nth_error_app1 by (rewrite length_firstn; lia).
  rewrite nth_error_firstn.
  destruct (Nat.ltb_spec j k); [reflexivity | lia].
Qed.

Lemma removeAt_after l (k j : nat) :
  (k <= j)%nat -> (k < length l)%nat ->
  nth_error (removeAt k l) j = nth_error l (S j).
Proof.
  intros Hj Hk. unfold removeAt.
  rewrite nth_error_app2 by (rewrite length_firstn; lia).
  rewrite length_firstn, nth_error_skipn. f_equal. lia.
Qed.

Lemma removeAt_length l (k : nat) :
  (k < length l)%nat -> length (removeAt k l) = (length l - 1)%nat.
Proof.
  intros Hk. unfold removeAt.
  rewrite length_app, length_firstn, length_skipn. lia.
Qed.

(** ** [deleteSong] *)

Lemma deleteSong_songs id0 st :
  songs (deleteSong id0 st)
  = filter (fun s => negb (String.eqb (id s) id0)) (songs st).
Proof. reflexivity. Qed.

Lemma deleteSong_active id0 st :
  findIndex (fun s => String.eqb (id s) id0) (songs st) = currentSongIndex st ->
  currentSongIndex (deleteSong id0 st) = -1 /\
  isPlaying (deleteSong id0 st) = false /\
  isVisualizerActiveRef (deleteSong id0 st) = false.
Proof.
  intros Hidx. unfold deleteSong. rewrite Hidx, Z.eqb_refl.
  destruct st as [sg ci ip du ct [a|] ac va [h|] cl]; cbn;
    destruct (find _ sg); cbn;
    match goal with |- context [canvasRef ?t] => destruct (canvasRef t) end;
    cbn; auto.
Qed.

Lemma deleteSong_earlier id0 st :
  findIndex (fun s => String.eqb (id s) id0) (songs st) < currentSongIndex st ->
  currentSongIndex (deleteSong id0 st) = currentSongIndex st - 1 /\
  isPlaying (deleteSong id0 st) = isPlaying st.
Proof.
  intros Hidx. unfold deleteSong.
  destruct (Z.eqb_spec (findIndex (fun s => String.eqb (id s) id0) (songs st))
                       (currentSongIndex st)) as [E | _]; [lia|].
  apply Z.ltb_lt in Hidx. rewrite Hidx.
  destruct (find _ (songs st)); cbn; auto.
Qed.

Lemma deleteSong_later id0 st :
  currentSongIndex st < findIndex (fun s => String.eqb (id s) id0) (songs st) ->
  currentSongIndex (deleteSong id0 st) = currentSongIndex st /\
  isPlaying (deleteSong id0 st) = isPlaying st /\
  isVisualizerActiveRef (deleteSong id0 st) = isVisualizerActiveRef st.
Proof.
  intros Hidx. unfold deleteSong.
  destruct (Z.eqb_spec (findIndex (fun s => String.eqb (id s) id0) (songs st))
                       (currentSongIndex st)) as [E | _]; [lia|].
  destruct (Z.ltb_spec (findIndex (fun s => String.eqb (id s) id0) (songs st))
                       (currentSongIndex st)) as [E | _]; [lia|].
  destruct (find _ (songs st)); cbn; auto.
Qed.

Lemma songAt_nth_error l (k : nat) : songAt l (Z.of_nat k) = nth_error l k.
Proof.
  unfold songAt. destruct (Z.ltb_spec (Z.of_nat k) 0); [lia|].
  now rewrite Nat2Z.id.
Qed.

Lemma songAt_Some l i s :
  songAt l i = Some s -> 0 <= i /\ nth_error l (Z.to_nat i) = Some s.
Proof.
  unfold songAt. destruct (Z.ltb_spec i 0); [discriminate|]. auto with zarith.
Qed.

(** C5, as amended.  When the song ids are pairwise distinct: deleting the
    active track clears the playing flag and sets the index to [-1];
    deleting a track at a smaller index lowers the index by exactly one,
    and the track under the new index is the one that was active. *)
Theorem deleteSong_active_or_earlier (st : State) :
  distinctIds (songs st) ->
  (forall s, songAt (songs st) (currentSongIndex st) = Some s ->
     isPlaying (deleteSong (id s) st) = false /\
     currentSongIndex (deleteSong (id s) st) = -1) /\
  (forall (k : nat) s,
     nth_error (songs st) k = Some s -> Z.of_nat k < currentSongIndex st ->
     currentSongIndex (deleteSong (id s) st) = currentSongIndex st - 1 /\
     songAt (songs (deleteSong (id s) st))
            (currentSongIndex (deleteSong (id s) st))
     = songAt (songs st) (currentSongIndex st)).
Proof.
  intros Hnd. split.
  - intros s Hs. apply songAt_Some in Hs as [Hpos Hs].
    destruct (deleteSong_active (id s) st) as [Hi [Hp _]]; [|auto].
    rewrite (findIndex_distinct _ _ _ Hnd Hs). lia.
  - intros k s Hk Hlt.
    destruct (deleteSong_earlier (id s) st) as [Hi _].
    { now rewrite (findIndex_distinct _ _ _ Hnd Hk). }
    split; [exact Hi|]. rewrite Hi, deleteSong_songs.
    rewrite (filter_distinct _ _ _ Hnd Hk).
    assert (Hkl : (k < length (songs st))%nat)
      by (apply nth_error_Some; congruence).
    unfold songAt.
    destruct (Z.ltb_spec (currentSongIndex st - 1) 0); [lia|].
    destruct (Z.ltb_spec (currentSongIndex st) 0); [lia|].
    rewrite removeAt_after by lia. f_equal. lia.
Qed.

Lemma deleteSong_active_or_earlier_witness :
  let st := playing [songA; songB] 1 in
  (isPlaying (deleteSong (id songB) st) = false /\
   currentSongIndex (deleteSong (id songB) st) = -1) /\
  (currentSongIndex (deleteSong (id songA) st) = 1 - 1 /\
   songAt (songs (deleteSong (id songA) st))
          (currentSongIndex (deleteSong (id songA) st))
   = Some songB).
Proof.
  intros st.
  destruct (deleteSong_active_or_earlier st) as [Hactive Hearlier].
  - unfold distinctIds. cbn. repeat constructor; cbn; intuition discriminate.
  - split.
    + apply (Hactive songB). reflexivity.
    + apply (Hearlier 0%nat songA); [reflexivity | cbn; lia].
Defined.

(** C5, as stated, fails when two entries share an id: with the second of
    them active, deleting it by its id finds the first one, so the index
    drops to [0], the playing flag stays set and both entries go. *)
Lemma deleteSong_active_shared_id :
  let st := playing [songA; songA'] 1 in
  songAt (songs st) (currentSongIndex st) = Some songA' /\
  isPlaying (deleteSong (id songA') st) = true /\
  currentSongIndex (deleteSong (id songA') st) = 0 /\
  songs (deleteSong (id songA') st) = [].
Proof. repeat split. Qed.

(** The spec's scenario: [A, B, C] with [C] playing, [A] deleted.  The
    index becomes 1 and [C] stays the active track; the index having
    changed, the song-change effect runs again, assigns [C]'s url to the
    audio element and plays it anew. *)
Lemma deleteSong_earlier_reloads_track :
  let st := dispatch true (deleteSong (id songA))
                     (playing [songA; songB; songC] 2) in
  songs st = [songB; songC] /\
  currentSongIndex st = 1 /\
  isPlaying st = true /\
  calls st = [revokeObjectURL "blob:a"; audio_src "blob:c";
              gain_cancelScheduledValues; gain_setValueAtTime 0;
              audio_play; gain_linearRampToValueAtTime 1 (8 / 10)].
Proof. repeat split. Qed.

(** C10, as amended.  When the song ids are pairwise distinct, deleting a
    track at an index above the current one leaves the index, the playing
    flag and the active track as they were, and removes that one entry. *)
Theorem deleteSong_later_frame (st : State) (k : nat) (s : Song) :
  distinctIds (songs st) ->
  nth_error (songs st) k = Some s ->
  currentSongIndex st < Z.of_nat k ->
  currentSongIndex (deleteSong (id s) st) = currentSongIndex st /\
  isPlaying (deleteSong (id s) st) = isPlaying st /\
  songAt (songs (deleteSong (id s) st)) (currentSongIndex (deleteSong (id s) st))
  = songAt (songs st) (currentSongIndex st) /\
  songs (deleteSong (id s) st) = removeAt k (songs st).
Proof.
  intros Hnd Hk Hlt.
  destruct (deleteSong_later (id s) st) as [Hi [Hp _]].
  { now rewrite (findIndex_distinct _ _ _ Hnd Hk). }
  assert (Hs : songs (deleteSong (id s) st) = removeAt k (songs st))
    by (rewrite deleteSong_songs; now apply filter_distinct).
  repeat split; auto.
  rewrite Hi, Hs. unfold songAt.
  destruct (Z.ltb_spec (currentSongIndex st) 0); [reflexivity|].
  apply removeAt_before; [lia|]. apply nth_error_Some. congruence.
Qed.

Lemma deleteSong_later_frame_witness :
  currentSongIndex (deleteSong (id songB) (playing [songA; songB] 0)) = 0 /\
  isPlaying (deleteSong (id songB) (playing [songA; songB] 0)) = true /\
  songAt (songs (deleteSong (id songB) (playing [songA; songB] 0)))
         (currentSongIndex (deleteSong (id songB) (playing [songA; songB] 0)))
  = songAt [songA; songB] 0 /\
  songs (deleteSong (id songB) (playing [songA; songB] 0))
  = removeAt 1 [songA; songB].
Proof.
  apply (deleteSong_later_frame (playing [songA; songB] 0) 1 songB).
  - unfold distinctIds. cbn. repeat constructor; cbn; intuition discriminate.
  - reflexivity.
  - cbn. lia.
Defined.

(** C10, as stated, fails when two entries share an id: with the first of
    them active, deleting the second by its id finds the active one, stops
    playback and removes both. *)
Lemma deleteSong_later_shared_id :
  let st := playing [songA; songA'] 0 in
  nth_error (songs st) 1 = Some songA' /\
  currentSongIndex (deleteSong (id songA') st) = -1 /\
  isPlaying (deleteSong (id songA') st) = false /\
  songs (deleteSong (id songA') st) = [].
Proof. repeat split. Qed.

(** ** [playSong] and [nextSong] *)

Lemma playSong_in_range index st :
  0 <= index < Z.of_nat (length (songs st)) ->
  playSong index st = setIsPlaying true (setCurrentSongIndex index st).
Proof.
  intros [Hlo Hhi]. unfold playSong.
  apply Z.leb_le in Hlo. apply Z.ltb_lt in Hhi. now rewrite Hlo, Hhi.
Qed.

(** On a non-empty playlist [nextSong] selects index
    [(currentSongIndex + 1) mod length] and sets the playing flag. *)
Lemma nextSong_wraps st :
  songs st <> [] -> -1 <= currentSongIndex st ->
  currentSongIndex (nextSong st)
  = (currentSongIndex st + 1) mod Z.of_nat (length (songs st)) /\
  isPlaying (nextSong st) = true /\
  songs (nextSong st) = songs st.
Proof.
  intros Hne Hcur. unfold nextSong.
  destruct (Nat.eqb_spec (length (songs st)) 0) as [E | E].
  { apply length_zero_iff_nil in E. contradiction. }
  assert (Hn : 0 < Z.of_nat (length (songs st))) by lia.
  rewrite Z.rem_mod_nonneg by lia.
  rewrite playSong_in_range by (apply Z.mod_pos_bound; lia).
  cbn. auto.
Qed.

Lemma findIndexFrom_lower f l i : -1 <= i -> -1 <= findIndexFrom f l i.
Proof.
  revert i; induction l as [|a l IH]; intros i Hi; cbn; [lia|].
  destruct (f a); [lia | apply IH; lia].
Qed.

(** The index never drops below the sentinel [-1]. *)
Lemma index_above_sentinel st :
  -1 <= currentSongIndex st ->
  (forall index, -1 <= currentSongIndex (playSong index st)) /\
  -1 <= currentSongIndex (nextSong st) /\
  (forall id0, -1 <= currentSongIndex (deleteSong id0 st)).
Proof.
  intros Hcur.
  assert (Hplay : forall index, -1 <= currentSongIndex (playSong index st)).
  { intros index. unfold playSong.
    destruct (0 <=? index) eqn:Hlo; cbn; [|exact Hcur].
    destruct (index <? Z.of_nat (length (songs st))); cbn; [|exact Hcur].
    apply Z.leb_le in Hlo. lia. }
  split; [exact Hplay|]. split.
  - unfold nextSong. destruct (length (songs st) =? 0)%nat; auto.
  - intros id0.
    pose proof (findIndexFrom_lower (fun s => String.eqb (id s) id0)
                  (songs st) 0 ltac:(lia)) as Hfind.
    fold (findIndex (fun s => String.eqb (id s) id0) (songs st)) in Hfind.
    destruct (Z.lt_trichotomy
                (findIndex (fun s => String.eqb (id s) id0) (songs st))
                (currentSongIndex st)) as [Hlt | [Heq | Hgt]].
    + destruct (deleteSong_earlier id0 st Hlt) as [-> _]. lia.
    + destruct (deleteSong_active id0 st Heq) as [-> _]. lia.
    + destruct (deleteSong_later id0 st Hgt) as [-> _]. lia.
Qed.

(** With one song at index 0 the handler writes the index it read, so the
    song-change effect does not run and no call is made. *)
Lemma nextSong_single_song playOk st s :
  songs st = [s] -> currentSongIndex st = 0 ->
  currentSongIndex (dispatch playOk nextSong st) = 0 /\
  isPlaying (dispatch playOk nextSong st) = true /\
  calls (dispatch playOk nextSong st) = calls st.
Proof.
  destruct st as [sg ci ip du ct ar ac va rr cl]. cbn. intros -> ->.
  unfold dispatch, nextSong, playSong. cbn. auto.
Qed.

Ltac state_simpl :=
  cbn [songs currentSongIndex isPlaying duration currentTime audioRef
       audioContextRef isVisualizerActiveRef requestRef calls
       setSongs setCurrentSongIndex setIsPlaying setCurrentTime setAudioRef
       setAudioContextRef setIsVisualizerActiveRef call].

Lemma nextSong_eq st :
  songs st <> [] -> -1 <= currentSongIndex st ->
  nextSong st
  = setIsPlaying true
      (setCurrentSongIndex
         ((currentSongIndex st + 1) mod Z.of_nat (length (songs st))) st).
Proof.
  intros Hne Hcur. unfold nextSong.
  destruct (Nat.eqb_spec (length (songs st)) 0) as [E | E].
  { apply length_zero_iff_nil in E. contradiction. }
  rewrite Z.rem_mod_nonneg by lia.
  apply playSong_in_range, Z.mod_pos_bound. lia.
Qed.

Lemma autoPlay_plays playOk st : In audio_play (calls (autoPlay playOk st)).
Proof.
  destruct st as [sg ci ip du ct ar [|] [|] rr cl]; destruct playOk;
    unfold autoPlay; cbn; rewrite ?in_app_iff; cbn; auto 10.
Qed.

(** The sibling path: with at least two songs the end of a track changes
    the index, the song-change effect runs, and [audio.play()] is called. *)
Lemma onEnded_next_song_plays playOk st :
  (2 <= length (songs st))%nat ->
  0 <= currentSongIndex st < Z.of_nat (length (songs st)) ->
  audioRef st <> None ->
  currentSongIndex (onEnded playOk st)
  = (currentSongIndex st + 1) mod Z.of_nat (length (songs st)) /\
  In audio_play (calls (onEnded playOk st)).
Proof.
  destruct st as [sg ci ip du ct [t|] ac va rr cl];
    cbn [songs currentSongIndex audioRef]; intros Hn Hcur Haudio;
    [|contradiction].
  assert (Hne : sg <> []) by (intros E; rewrite E in Hn; cbn in Hn; lia).
  unfold onEnded, dispatch. rewrite nextSong_eq by (cbn; auto; lia).
  state_simpl.
  set (n := Z.of_nat (length sg)) in *.
  set (next := (ci + 1) mod n).
  assert (Hnext : 0 <= next < n) by (apply Z.mod_pos_bound; lia).
  assert (Hdiff : next <> ci).
  { unfold next. destruct (Z.eq_dec (ci + 1) n) as [E | E].
    - rewrite E, Z.mod_same by lia. lia.
    - rewrite Z.mod_small by lia. lia. }
  destruct (Z.eqb_spec next ci) as [E | _]; [contradiction|].
  unfold changeSong, songAt. state_simpl.
  destruct (Z.eqb_spec next (-1)) as [E | _]; [lia|]. cbn [negb].
  destruct (Z.ltb_spec next 0) as [E | _]; [lia|].
  destruct (nth_error sg (Z.to_nat next)) as [song|] eqn:Hsong.
  2:{ apply nth_error_None in Hsong. lia. }
  split; [|destruct ac; apply autoPlay_plays].
  destruct ac, va, playOk; reflexivity.
Qed.

(** C6 fails on the code for the one-song playlist.  When the only song
    ends while playing, [nextSong] computes index [(0 + 1) % 1 = 0] and
    writes back the state it read: the song-change effect, keyed on
    [currentSongIndex], does not run and [audio.play()] is not called.
    With two songs the same event changes the index and plays. *)
Theorem onEnded_single_song_not_replayed :
  nextSong (playing [songA] 0) = playing [songA] 0 /\
  onEnded true (playing [songA] 0) = playing [songA] 0 /\
  calls (onEnded true (playing [songA] 0)) = [] /\
  currentSongIndex (onEnded true (playing [songA; songB] 0)) = 1 /\
  In audio_play (calls (onEnded true (playing [songA; songB] 0))) /\
  currentSongIndex (onEnded true (playing [songA; songB] 1)) = 0 /\
  In audio_play (calls (onEnded true (playing [songA; songB] 1))).
Proof.
  repeat split; try reflexivity;
    unfold onEnded, dispatch, nextSong, playSong, changeSong, autoPlay,
      songAt, playing;
    cbn; rewrite ?Pos2Nat.inj_1; cbn; auto 10.
Qed.

End PlayerFacts.

Module SeekFacts.
Import Player.

(** ** [skipTime] *)

Lemma orZero_id (d : R) : orZero d = d.
Proof. unfold orZero. destruct (Req_dec_T d 0); congruence. Qed.

(** [Math.min(Math.max(t, 0), d)] is the clamp of [t] to [[0, d]]. *)
Lemma min_max_clamp (d t : R) : 0 <= d -> Rmin (Rmax t 0) d = clamp 0 d t.
Proof.
  intros Hd. unfold clamp.
  destruct (Rlt_dec t 0) as [Hlo | Hlo].
  - rewrite Rmax_right by lra. apply Rmin_left. exact Hd.
  - rewrite Rmax_left by lra.
    destruct (Rlt_dec d t) as [Hhi | Hhi].
    + apply Rmin_right. lra.
    + apply Rmin_left. lra.
Qed.

Lemma clamp_range (d t : R) : 0 <= d -> 0 <= clamp 0 d t <= d.
Proof.
  intros Hd. unfold clamp.
  destruct (Rlt_dec t 0); [lra|]. destruct (Rlt_dec d t); lra.
Qed.

Lemma skipTime_unmounted amount st :
  audioRef st = None -> skipTime amount st = st.
Proof. intros H. unfold skipTime. now rewrite H. Qed.

(** C9.  Whatever the delta and the element's current time, [skipTime]
    moves the element (and the displayed time) to the target time clamped
    to [[0, duration]]; the handler has no failing path. *)
Theorem skipTime_clamps (amount : R) (st : State) (audioTime : R) :
  audioRef st = Some audioTime ->
  0 <= duration st ->
  audioRef (skipTime amount st)
  = Some (clamp 0 (duration st) (audioTime + amount)) /\
  currentTime (skipTime amount st)
  = clamp 0 (duration st) (audioTime + amount) /\
  0 <= clamp 0 (duration st) (audioTime + amount) <= duration st.
Proof.
  intros Ha Hd. unfold skipTime. rewrite Ha. cbn.
  rewrite orZero_id, min_max_clamp by assumption.
  repeat split; try reflexivity; now apply clamp_range.
Qed.

Lemma skipTime_clamps_witness :
  audioRef (skipTime 10 (playing [songA] 0))
  = Some (clamp 0 180 (0 + 10)) /\
  currentTime (skipTime 10 (playing [songA] 0)) = clamp 0 180 (0 + 10) /\
  0 <= clamp 0 180 (0 + 10) <= 180.
Proof.
  apply (skipTime_clamps 10 (playing [songA] 0) 0).
  - reflexivity.
  - cbn. lra.
Defined.

End SeekFacts.

(** * Further properties of the visualiser *)

Module PipelineFacts.
Import Visualizer VisualizerFacts.

(** ** The frequency scale *)

Lemma logMin_lt_logMax : logMin < logMax.
Proof. unfold logMin, logMax, minFreq, maxFreq. apply ln_increasing; lra. Qed.

Lemma percentAt_lt (i j : nat) : (i < j)%nat -> percentAt i < percentAt j.
Proof.
  intros Hij. unfold percentAt. rewrite INR_steps.
  apply lt_INR in Hij. lra.
Qed.

Lemma freqAt_lt (i j : nat) : (i < j)%nat -> freqAt i < freqAt j.
Proof.
  intros Hij. unfold freqAt. apply exp_increasing.
  pose proof logMin_lt_logMax. pose proof (percentAt_lt i j Hij). nra.
Qed.

Lemma freqAt_le (i j : nat) : (i <= j)%nat -> freqAt i <= freqAt j.
Proof.
  intros Hij. destruct (Nat.eq_dec i j) as [-> | Hne]; [lra|].
  left. apply freqAt_lt. lia.
Qed.



(** ** Bins *)

Lemma binIndex_le (sampleRate f g : R) :
  0 < sampleRate -> f <= g ->
  (binIndex sampleRate f <= binIndex sampleRate g)%Z.
Proof.
  intros Hsr Hfg. unfold binIndex, fftSize. apply Zfloor_le.
  assert (Hbin : 0 < sampleRate / 4096) by lra.
  apply Rmult_le_compat_r; [|exact Hfg].
  left. now apply Rinv_0_lt_compat.
Qed.

Lemma binIndex_scale (sampleRate f : R) :
  0 < sampleRate -> f / (sampleRate / 4096) = f * 4096 / sampleRate.
Proof. intros Hsr. field. lra. Qed.

(** Above 32 kHz of sample rate every step reads one of the 2048 bins, and
    later steps never read an earlier bin. *)
Theorem binIndex_in_range (sampleRate : R) (i j : nat) :
  32000 < sampleRate -> (i <= j)%nat -> (j <= steps)%nat ->
  (0 <= binIndex sampleRate (freqAt i))%Z /\
  (binIndex sampleRate (freqAt i) <= binIndex sampleRate (freqAt j))%Z /\
  (binIndex sampleRate (freqAt j) < 2048)%Z.
Proof.
  intros Hsr Hij Hj.
  assert (Hlo : 20 <= freqAt i)
    by (rewrite <- freqAt_first; apply freqAt_le; lia).
  assert (Hhi : freqAt j <= 16000)
    by (rewrite <- freqAt_last; now apply freqAt_le).
  split; [|split].
  - unfold binIndex, fftSize. apply Zfloor_lub.
    rewrite binIndex_scale by lra. apply Rmult_le_pos; [lra|].
    left. apply Rinv_0_lt_compat. lra.
  - apply binIndex_le; [lra | now apply freqAt_le].
  - unfold binIndex, fftSize. rewrite binIndex_scale by lra.
    pose proof (Zfloor_bound (freqAt j * 4096 / sampleRate)) as [Hb _].
    assert (Hq : freqAt j * 4096 / sampleRate < 2048).
    { apply Rmult_lt_reg_r with sampleRate; [lra|].
      unfold Rdiv. rewrite Rmult_assoc, Rinv_l by lra. lra. }
    apply lt_IZR. lra.
Qed.

Lemma binIndex_in_range_witness :
  (0 <= binIndex 44100 (freqAt 0))%Z /\
  (binIndex 44100 (freqAt 0) <= binIndex 44100 (freqAt 180))%Z /\
  (binIndex 44100 (freqAt 180) < 2048)%Z.
Proof. apply (binIndex_in_range 44100 0 180); [lra | lia | unfold steps; lia]. Defined.

(** At a sample rate of 32 kHz or less the last step asks for a bin past
    the end of the 2048-entry snapshot and is drawn at [y = 0]. *)
Theorem points_last_silent_at_low_rate dataArray (sampleRate width height : R) :
  length dataArray = 2048%nat ->
  0 < sampleRate <= 32000 ->
  y (nth 180 (points dataArray (Some sampleRate) width height) origin) = 0.
Proof.
  intros Hlen [Hpos Hsr].
  rewrite points_nth by (unfold steps; lia).
  assert (Hrate : sampleRateOf (Some sampleRate) = sampleRate).
  { unfold sampleRateOf. destruct (Req_dec_T sampleRate 0); lra. }
  rewrite Hrate. unfold pointAt. cbn [y].
  change 180%nat with steps. rewrite freqAt_last.
  assert (Hidx : (2048 <= binIndex sampleRate 16000)%Z).
  { unfold binIndex, fftSize. apply Zfloor_lub.
    rewrite binIndex_scale by lra.
    apply Rmult_le_reg_r with sampleRate; [lra|].
    unfold Rdiv. rewrite Rmult_assoc, Rinv_l by lra. lra. }
  unfold magnitudeAt. rewrite Hlen.
  destruct (Z.ltb_spec (binIndex sampleRate 16000) (Z.of_nat 2048)) as [E | _];
    [lia|].
  rewrite andb_false_r, noiseGate_below by lra. ring.
Qed.

Lemma points_last_silent_at_low_rate_witness :
  y (nth 180 (points fullScale (Some 22050) 400 240) origin) = 0.
Proof.
  apply (points_last_silent_at_low_rate fullScale 22050 400 240).
  - apply repeat_length.
  - lra.
Defined.

(** ** Gate and equaliser *)

(** The gate never lowers the output when the input rises; it is 0 up to
    the threshold and 1 at full scale. *)
Theorem noiseGate_monotone (a b : R) :
  a <= b -> b <= 255 ->
  0 <= noiseGate a <= noiseGate b /\ noiseGate b <= noiseGate 255 /\
  noiseGate 255 = 1.
Proof.
  intros Hab Hb.
  assert (H255 : noiseGate 255 = 1).
  { rewrite noiseGate_above by lra. field. }
  assert (Hmono : forall u v, u <= v -> 0 <= noiseGate u <= noiseGate v).
  { intros u v Huv. destruct (Rlt_dec u 10) as [Hu | Hu].
    - rewrite (noiseGate_below u) by assumption. split; [lra|].
      destruct (Rlt_dec v 10) as [Hv | Hv].
      + rewrite noiseGate_below by assumption. lra.
      + rewrite noiseGate_above by lra. apply pow2_ge_0.
    - rewrite !noiseGate_above by lra.
      set (p := (u - 10) / (255 - 10)). set (q := (v - 10) / (255 - 10)).
      assert (Hp : 0 <= p) by (unfold p; lra).
      assert (Hpq : p <= q) by (unfold p, q; lra).
      simpl. nra. }
  split; [now apply Hmono|]. split; [|exact H255].
  now apply Hmono.
Qed.

Lemma noiseGate_monotone_witness :
  0 <= noiseGate 20 <= noiseGate 200 /\ noiseGate 200 <= noiseGate 255 /\
  noiseGate 255 = 1.
Proof. apply (noiseGate_monotone 20 200); lra. Defined.

Lemma eqWeight_1000 : eqWeight 1000 = 172 / 100.
Proof.
  unfold eqWeight.
  destruct (Rlt_dec 1000 60); [lra|].
  destruct (Rle_dec 200 1000); [|lra].
  destruct (Rle_dec 1000 4000); [|lra].
  destruct (Rlt_dec 6000 1000); [lra|]. cbv zeta.
  replace (1000 - 1000) with 0 by ring. rewrite Rabs_R0.
  rewrite Rmax_right by lra. field.
Qed.

(** The weight is at least 0.1 everywhere and has its one maximum, 1.72,
    at 1000 Hz. *)
Theorem eqWeight_peak (freq : R) :
  1 / 10 <= eqWeight freq <= eqWeight 1000 /\
  (eqWeight freq = eqWeight 1000 <-> freq = 1000).
Proof.
  rewrite eqWeight_1000. split; [apply eqWeight_range|].
  split; [|intros ->; apply eqWeight_1000].
  unfold eqWeight.
  destruct (Rlt_dec freq 60) as [Hlo | Hlo];
  destruct (Rle_dec 200 freq) as [Hm1 | Hm1];
  try destruct (Rle_dec freq 4000) as [Hm2 | Hm2];
  destruct (Rlt_dec 6000 freq) as [Hhi | Hhi];
  try lra; cbv zeta.
  - assert (Rmax (1 / 10) ((freq - 20) / 40) <= 1)
      by (apply Rmax_lub; lra).
    lra.
  - intros Hw.
    assert (Hb : Rmax 0 (12 / 10 - Rabs (freq - 1000) / 2000) = 12 / 10)
      by lra.
    assert (Habs : Rabs (freq - 1000) = 0).
    { pose proof (Rabs_pos (freq - 1000)).
      pose proof (Rmax_r 0 (12 / 10 - Rabs (freq - 1000) / 2000)).
      destruct (Rle_dec (12 / 10 - Rabs (freq - 1000) / 2000) 0) as [Hn | Hn].
      - rewrite Rmax_left in Hb by lra. lra.
      - rewrite Rmax_right in Hb by lra. lra. }
    destruct (Req_dec (freq - 1000) 0) as [E | E]; [lra|].
    apply Rabs_no_R0 in E. contradiction.
Qed.

(** ** From the snapshot to the smoothed points *)

Lemma Forall_nth_origin (P : Point -> Prop) (ps : list Point) :
  (forall i, (i < length ps)%nat -> P (nth i ps origin)) -> Forall P ps.
Proof.
  intros H. apply Forall_forall. intros p Hp.
  destruct (In_nth ps p origin Hp) as [i [Hi <-]]. now apply H.
Qed.

Lemma smooth_Forall_y (lo hi : R) (ps : list Point) :
  Forall (fun p => lo <= y p <= hi) ps ->
  Forall (fun p => lo <= y p <= hi) (smooth ps).
Proof.
  intros Hall. apply Forall_nth_origin. intros i Hi.
  rewrite smooth_length in Hi. apply smooth_hull; [assumption|].
  intros j _ Hj. rewrite Forall_forall in Hall. apply Hall. now apply nth_In.
Qed.

(** The smoothed points of a frame: still 181, with the [x] of the loop
    (from [0] to [width]) and every [y] in [[0, 1.72 * height * 0.25]]. *)
Theorem smooth_points_range dataArray ctxRate (width height : R) :
  Forall (fun v => (0 <= v <= 255)%Z) dataArray ->
  0 <= height ->
  let sp := smooth (points dataArray ctxRate width height) in
  length sp = 181%nat /\
  (forall i, (i <= 180)%nat -> x (nth i sp origin) = width * (INR i / 180)) /\
  x (nth 0 sp origin) = 0 /\ x (nth 180 sp origin) = width /\
  Forall (fun p => 0 <= y p <= 172 / 100 * (height * (25 / 100))) sp.
Proof.
  intros Hall Hh sp.
  assert (Hx : forall i, (i <= 180)%nat ->
                 x (nth i sp origin) = width * (INR i / 180)).
  { intros i Hi. unfold sp.
    rewrite smooth_x, points_nth by (unfold steps; lia).
    unfold pointAt, percentAt. cbn [x]. now rewrite INR_steps. }
  split; [unfold sp; now rewrite smooth_length, points_length|].
  split; [exact Hx|]. split; [|split].
  - rewrite Hx by lia. cbn [INR]. field.
  - rewrite Hx by lia. rewrite INR_IZR_INZ. cbn [Z.of_nat Pos.of_succ_nat
      Pos.succ]. field.
  - apply smooth_Forall_y. unfold points. apply Forall_forall.
    intros p Hp. apply in_map_iff in Hp as [i [<- _]].
    now apply pointAt_y_range.
Qed.

Lemma smooth_points_range_witness :
  let sp := smooth (points fullScale None 400 240) in
  length sp = 181%nat /\
  (forall i, (i <= 180)%nat -> x (nth i sp origin) = 400 * (INR i / 180)) /\
  x (nth 0 sp origin) = 0 /\ x (nth 180 sp origin) = 400 /\
  Forall (fun p => 0 <= y p <= 172 / 100 * (240 * (25 / 100))) sp.
Proof.
  apply (smooth_points_range fullScale None 400 240).
  - unfold fullScale. apply Forall_forall. intros v Hv.
    apply repeat_spec in Hv. lia.
  - lra.
Defined.

Lemma noiseGate_closed (m : R) : m <= 10 -> noiseGate m = 0.
Proof.
  intros Hm. destruct (Rlt_dec m 10) as [Hlt | Hge].
  - now apply noiseGate_below.
  - rewrite noiseGate_above by lra. replace m with 10 by lra. field.
Qed.

(** A snapshot that stays at or below the gate threshold is drawn flat:
    every smoothed point has [y = 0]. *)
Theorem silent_snapshot_flat dataArray ctxRate (width height : R) :
  Forall (fun v => (v <= 10)%Z) dataArray ->
  Forall (fun p => y p = 0)
         (smooth (points dataArray ctxRate width height)).
Proof.
  intros Hall.
  assert (Hpts : Forall (fun p => 0 <= y p <= 0)
                        (points dataArray ctxRate width height)).
  { unfold points. apply Forall_forall. intros p Hp.
    apply in_map_iff in Hp as [i [<- _]]. unfold pointAt. cbn [y].
    assert (Hg : noiseGate
                   (magnitudeAt dataArray
                      (binIndex (sampleRateOf ctxRate) (freqAt i))) = 0).
    { apply noiseGate_closed. unfold magnitudeAt.
      destruct ((0 <=? _)%Z && (_ <? _)%Z)%bool eqn:Hin; [|lra].
      apply andb_true_iff in Hin as [Hlo Hhi].
      apply Z.leb_le in Hlo. apply Z.ltb_lt in Hhi.
      rewrite Forall_forall in Hall.
      apply (IZR_le _ 10), Hall, nth_In. lia. }
    rewrite Hg. lra. }
  apply smooth_Forall_y in Hpts.
  eapply Forall_impl; [|exact Hpts]. cbv beta. intros p Hp. lra.
Qed.

Lemma silent_snapshot_flat_witness :
  Forall (fun p => y p = 0) (smooth (points [10%Z; 3%Z] None 400 240)).
Proof.
  apply (silent_snapshot_flat [10%Z; 3%Z] None 400 240).
  repeat constructor; lia.
Defined.



(** ** The path of a frame *)

Lemma path_length width centerY sp cmds :
  path width centerY sp = Some cmds ->
  length cmds = (2 * length sp + 2)%nat.
Proof.
  destruct sp as [|p sp]; [discriminate|]. intros [= <-].
  unfold upperCmds, lowerCmds.
  cbn [length]. rewrite !length_app, !length_map, length_rev, !length_seq.
  cbn [length]. lia.
Qed.

(** Every frame has a path: 364 calls, from [moveTo(0, height / 2)] to
    [closePath]; [last] is never [undefined]. *)
Theorem drawVisualizer_path_shape dataArray ctxRate (width height : R) :
  exists cmds,
    drawVisualizer dataArray ctxRate width height = Some cmds /\
    length cmds = 364%nat /\
    hd closePath cmds = moveTo 0 (height / 2) /\
    last cmds (moveTo 0 0) = closePath.
Proof.
  unfold drawVisualizer.
  set (sp := smooth (points dataArray ctxRate width height)).
  assert (Hlen : length sp = 181%nat)
    by (unfold sp; now rewrite smooth_length, points_length).
  destruct (path width (height / 2) sp) as [cmds|] eqn:Hpath.
  - exists cmds. split; [reflexivity|].
    split; [rewrite (path_length _ _ _ _ Hpath), Hlen; reflexivity|].
    destruct sp as [|p sp']; [discriminate|]. injection Hpath as <-.
    split; [reflexivity|].
    unfold lowerCmds.
    rewrite app_comm_cons, app_assoc. apply last_last.
  - destruct sp; [discriminate Hlen | discriminate Hpath].
Qed.

Lemma bezier_le (m a c b t : R) :
  0 <= t <= 1 -> a <= m -> c <= m -> b <= m -> bezier a c b t <= m.
Proof.
  intros Ht Ha Hc Hb.
  pose proof (bezier_ge (- m) (- a) (- c) (- b) t Ht
                ltac:(lra) ltac:(lra) ltac:(lra)) as H.
  unfold bezier in *. lra.
Qed.

Lemma linear_le (m a b t : R) :
  0 <= t <= 1 -> a <= m -> b <= m -> linear a b t <= m.
Proof. intros [Ht0 Ht1] Ha Hb. unfold linear. nra. Qed.

Lemma onSegment_onOrAbove (c : R) (s : Segment) (q : Coord) :
  onOrAbove c s -> onSegment s q -> snd q <= c.
Proof.
  intros Hs [t [Ht <-]]. destruct s as [a b | a k b]; cbn in *.
  - destruct Hs. now apply linear_le.
  - destruct Hs as [? [? ?]]. now apply bezier_le.
Qed.

Lemma onSegment_onOrBelow (c : R) (s : Segment) (q : Coord) :
  onOrBelow c s -> onSegment s q -> c <= snd q.
Proof.
  intros Hs [t [Ht <-]]. destruct s as [a b | a k b]; cbn in *.
  - destruct Hs. now apply linear_ge.
  - destruct Hs as [? [? ?]]. now apply bezier_ge.
Qed.

(** Segments inherit the side of the line from the pen and from the
    points of the calls. *)
Lemma segments_onOrAbove (c : R) cmds start cur :
  snd start <= c -> snd cur <= c ->
  (forall cmd q, In cmd cmds -> In q (cmdPoints cmd) -> snd q <= c) ->
  forall s, In s (segments start cur cmds) -> onOrAbove c s.
Proof.
  revert start cur; induction cmds as [|cmd cmds IH];
    intros start cur Hstart Hcur Hpts s Hin; [contradiction|].
  assert (Hrest : forall cmd' q, In cmd' cmds -> In q (cmdPoints cmd') ->
                    snd q <= c)
    by (intros cmd' q Hc; apply Hpts; now right).
  destruct cmd as [px py | cpx cpy px py | px py |]; cbn [segments] in Hin.
  - apply (IH (px, py) (px, py)); auto;
      apply (Hpts (moveTo px py)); cbn; auto.
  - assert (Hq : snd (px, py) <= c)
      by (apply (Hpts (quadraticCurveTo cpx cpy px py)); cbn; auto).
    destruct Hin as [<- | Hin]; [|now apply (IH start (px, py))].
    cbn. repeat split; auto.
    apply (Hpts (quadraticCurveTo cpx cpy px py) (cpx, cpy)); cbn; auto.
  - assert (Hq : snd (px, py) <= c)
      by (apply (Hpts (lineTo px py)); cbn; auto).
    destruct Hin as [<- | Hin]; [|now apply (IH start (px, py))].
    cbn. auto.
  - destruct Hin as [<- | Hin]; [|now apply (IH start start)].
    cbn. auto.
Qed.

Lemma segments_onOrBelow (c : R) cmds start cur :
  c <= snd start -> c <= snd cur ->
  (forall cmd q, In cmd cmds -> In q (cmdPoints cmd) -> c <= snd q) ->
  forall s, In s (segments start cur cmds) -> onOrBelow c s.
Proof.
  revert start cur; induction cmds as [|cmd cmds IH];
    intros start cur Hstart Hcur Hpts s Hin; [contradiction|].
  assert (Hrest : forall cmd' q, In cmd' cmds -> In q (cmdPoints cmd') ->
                    c <= snd q)
    by (intros cmd' q Hc; apply Hpts; now right).
  destruct cmd as [px py | cpx cpy px py | px py |]; cbn [segments] in Hin.
  - apply (IH (px, py) (px, py)); auto;
      apply (Hpts (moveTo px py)); cbn; auto.
  - assert (Hq : c <= snd (px, py))
      by (apply (Hpts (quadraticCurveTo cpx cpy px py)); cbn; auto).
    destruct Hin as [<- | Hin]; [|now apply (IH start (px, py))].
    cbn. repeat split; auto.
    apply (Hpts (quadraticCurveTo cpx cpy px py) (cpx, cpy)); cbn; auto.
  - assert (Hq : c <= snd (px, py))
      by (apply (Hpts (lineTo px py)); cbn; auto).
    destruct Hin as [<- | Hin]; [|now apply (IH start (px, py))].
    cbn. auto.
  - destruct Hin as [<- | Hin]; [|now apply (IH start start)].
    cbn. auto.
Qed.

Lemma nth_nonneg (sp : list Point) (i : nat) :
  Forall (fun p => 0 <= y p) sp -> 0 <= y (nth i sp origin).
Proof.
  intros Hall. destruct (Nat.lt_ge_cases i (length sp)) as [Hi | Hi].
  - rewrite Forall_forall in Hall. apply Hall. now apply nth_In.
  - rewrite nth_overflow by assumption. cbn. lra.
Qed.

(** With no negative amplitude the shape never crosses the centre line:
    the upper contour stays on or above it, the lower one on or below. *)
Theorem contours_keep_their_side (width centerY : R) (sp : list Point)
    (q : Coord) :
  Forall (fun p => 0 <= y p) sp ->
  (onContour (upperContour width centerY sp) q -> snd q <= centerY) /\
  (onContour (lowerContour width centerY sp) q -> centerY <= snd q).
Proof.
  intros Hall. split; intros [s [Hin Hon]].
  - apply (onSegment_onOrAbove centerY s q); [|exact Hon].
    revert Hin. apply segments_onOrAbove; cbn [snd]; try lra.
    intros cmd r Hcmd Hr. unfold upperCmds in Hcmd.
    apply in_app_or in Hcmd as [Hcmd | [<- | [<- | []]]].
    + apply in_map_iff in Hcmd as [i [<- _]]. unfold topCurve in Hr.
      pose proof (nth_nonneg sp i Hall).
      pose proof (nth_nonneg sp (i + 1) Hall).
      destruct Hr as [<- | [<- | []]]; cbn [snd]; lra.
    + pose proof (nth_nonneg sp (length sp - 1) Hall).
      destruct Hr as [<- | []]; cbn [snd]; lra.
    + destruct Hr as [<- | []]; cbn [snd]; lra.
  - apply (onSegment_onOrBelow centerY s q); [|exact Hon].
    revert Hin. apply segments_onOrBelow; cbn [snd]; try lra.
    intros cmd r Hcmd Hr. unfold lowerCmds in Hcmd.
    apply in_app_or in Hcmd as [Hcmd | [<- | []]]; [|contradiction].
    apply in_map_iff in Hcmd as [i [<- _]]. unfold bottomCurve in Hr.
    pose proof (nth_nonneg sp i Hall).
    pose proof (nth_nonneg sp (i - 1) Hall).
    destruct Hr as [<- | [<- | []]]; cbn [snd]; lra.
Qed.

Lemma contours_keep_their_side_witness :
  onContour (upperContour 3 2 spike4) (0, 2) /\ snd ((0, 2) : Coord) <= 2.
Proof.
  assert (Hon : onContour (upperContour 3 2 spike4) (0, 2)).
  { exists (Quad (0, 2) (0, 2 - 9) ((0 + 1) / 2, 2 - (9 + 0) / 2)).
    split; [now left|].
    exists 0. split; [lra|]. unfold pointOn, bezier. cbn [fst snd].
    f_equal; ring. }
  destruct (contours_keep_their_side 3 2 spike4 (0, 2)) as [Hup _].
  - unfold spike4. repeat constructor; cbn; lra.
  - split; [exact Hon | exact (Hup Hon)].
Defined.

(** ** When the shape is symmetric *)

Lemma pen_topCurves_cur centerY sp start cur (a k : nat) :
  snd (pen start cur (map (topCurve centerY sp) (seq a (S k))))
  = upperMid centerY sp (a + k) (a + k + 1).
Proof.
  rewrite seq_S, map_app, pen_app. reflexivity.
Qed.

Lemma upperContour_split width centerY sp :
  (2 <= length sp)%nat ->
  upperContour width centerY sp
  = map (fun i => if Nat.eqb i 0
                  then Quad (0, centerY) (upperControl centerY sp i)
                            (upperMid centerY sp i (i + 1))
                  else upperCurve centerY sp i)
        (seq 0 (length sp - 1))
    ++ [Line (upperMid centerY sp (length sp - 2) (length sp - 2 + 1))
             (upperControl centerY sp (length sp - 1));
        Line (upperControl centerY sp (length sp - 1)) (width, centerY)].
Proof.
  intros Hn. unfold upperContour, upperCmds.
  rewrite segments_app, topCurves_segments. f_equal.
  rewrite pen_topCurves_start.
  assert (Hpen : snd (pen (0, centerY) (0, centerY)
                        (map (topCurve centerY sp) (seq 0 (length sp - 1))))
                 = upperMid centerY sp (length sp - 2) (length sp - 2 + 1)).
  { replace (length sp - 1)%nat with (S (length sp - 2)) by lia.
    now rewrite pen_topCurves_cur. }
  rewrite Hpen. reflexivity.
Qed.

Lemma lowerContour_curves width centerY sp :
  (2 <= length sp)%nat ->
  lowerContour width centerY sp
  = map (fun i => if Nat.eqb i (length sp - 1)
                  then Quad (width, centerY) (lowerControl centerY sp i)
                            (lowerMid centerY sp i (i - 1))
                  else lowerCurve centerY sp i)
        (rev (seq 1 (length sp - 1)))
    ++ [Line (lowerMid centerY sp 1 0) (0, centerY)].
Proof.
  intros Hn. rewrite lowerContour_split by assumption.
  now rewrite bottomCurves_segments.
Qed.

Lemma bezier_degenerate (a b t : R) : bezier a a b t = linear a b (t ^ 2).
Proof. unfold bezier, linear. ring. Qed.

Lemma linear_same (a t : R) : linear a a t = a.
Proof. unfold linear. ring. Qed.

Lemma unit_sqrt (u : R) :
  0 <= u <= 1 -> 0 <= sqrt (1 - u) <= 1 /\ sqrt (1 - u) ^ 2 = 1 - u.
Proof.
  intros [Hu0 Hu1]. split; [split|].
  - apply sqrt_pos.
  - pose proof (sqrt_le_1 (1 - u) 1 ltac:(lra) ltac:(lra) ltac:(lra)) as H.
    now rewrite sqrt_1 in H.
  - simpl. rewrite Rmult_1_r. apply sqrt_sqrt. lra.
Qed.

(** A cap: a curve that leaves a point [p] with [p] itself as control
    point towards [e] covers the same points as the straight line between
    the mirror images of [e] and [p], mirrored. *)
Lemma cap_mirror (centerY px d : R) (p e e' : Coord) :
  snd p = centerY -> fst e' = fst e -> snd e' - centerY = centerY - snd e ->
  (onSegment (Quad p p e) (px, centerY - d)
   <-> onSegment (Line e' p) (px, centerY + d)).
Proof.
  destruct p as [p1 p2], e as [e1 e2], e' as [f1 f2]. cbn [fst snd].
  intros -> -> Hf.
  assert (Hf2 : f2 = 2 * centerY - e2) by lra. subst f2.
  unfold onSegment, pointOn. cbn [fst snd]. split.
  - intros [t [Ht Hq]]. rewrite !bezier_degenerate in Hq.
    injection Hq as Hx Hy. exists (1 - t ^ 2).
    split; [simpl; nra|]. unfold linear in *. f_equal; lra.
  - intros [u [Hu Hq]]. injection Hq as Hx Hy.
    destruct (unit_sqrt u Hu) as [Hs Hsq].
    exists (sqrt (1 - u)). split; [exact Hs|].
    rewrite !bezier_degenerate, Hsq. unfold linear in *. f_equal; lra.
Qed.

Lemma cap_mirror_down (centerY px d : R) (p e e' : Coord) :
  snd p = centerY -> fst e' = fst e -> snd e' - centerY = centerY - snd e ->
  (onSegment (Line e p) (px, centerY - d)
   <-> onSegment (Quad p p e') (px, centerY + d)).
Proof.
  intros Hp Hx Hy.
  pose proof (cap_mirror centerY px (- d) p e' e Hp (eq_sym Hx)
                ltac:(lra)) as H.
  replace (centerY - - d) with (centerY + d) in H by ring.
  replace (centerY + - d) with (centerY - d) in H by ring.
  symmetry. exact H.
Qed.

Lemma curve_mirror (centerY px d : R) (sp : list Point) (i : nat) :
  (1 <= i)%nat ->
  (onSegment (upperCurve centerY sp i) (px, centerY - d)
   <-> onSegment (lowerCurve centerY sp i) (px, centerY + d)).
Proof.
  intros Hi.
  assert (Hpt : forall t,
             fst (pointOn (lowerCurve centerY sp i) (1 - t))
             = fst (pointOn (upperCurve centerY sp i) t) /\
             snd (pointOn (lowerCurve centerY sp i) (1 - t)) - centerY
             = centerY - snd (pointOn (upperCurve centerY sp i) t)).
  { intros t. unfold lowerCurve, upperCurve, pointOn.
    replace (i + 1 - 1)%nat with i by lia.
    replace (i - 1 + 1)%nat with i by lia.
    cbn [fst snd lowerMid upperMid lowerControl upperControl].
    unfold bezier. split; field. }
  split.
  - intros [t [Ht Hq]]. exists (1 - t). split; [lra|].
    destruct (Hpt t) as [Hx Hy]. rewrite Hq in Hx, Hy. cbn [fst snd] in Hx, Hy.
    destruct (pointOn (lowerCurve centerY sp i) (1 - t)) as [q1 q2].
    cbn [fst snd] in Hx, Hy. f_equal; lra.
  - intros [t [Ht Hq]]. exists (1 - t). split; [lra|].
    destruct (Hpt (1 - t)) as [Hx Hy].
    replace (1 - (1 - t)) with t in Hx, Hy by ring.
    rewrite Hq in Hx, Hy. cbn [fst snd] in Hx, Hy.
    destruct (pointOn (upperCurve centerY sp i) (1 - t)) as [q1 q2].
    cbn [fst snd] in Hx, Hy. f_equal; lra.
Qed.

(** The symmetry the spec asks for holds when the sequence starts at
    [(0, 0)] and ends at [(width, 0)]: with both end amplitudes at zero
    the two caps are straight, and every point of the upper contour has
    its mirror image on the lower one and conversely. *)
Theorem mirrorSymmetric_closed_ends (width centerY : R) (sp : list Point) :
  (2 <= length sp)%nat ->
  nth 0 sp origin = mkPoint 0 0 ->
  nth (length sp - 1) sp origin = mkPoint width 0 ->
  mirrorSymmetric width centerY sp.
Proof.
  intros Hn Hfirst Hlast px d.
  assert (Hleft : onSegment (Quad (0, centerY) (upperControl centerY sp 0)
                                  (upperMid centerY sp 0 (0 + 1)))
                            (px, centerY - d)
                  <-> onSegment (Line (lowerMid centerY sp 1 0) (0, centerY))
                                (px, centerY + d)).
  { unfold upperControl. rewrite Hfirst. cbn [x y].
    replace (centerY - 0) with centerY by ring.
    apply cap_mirror; unfold lowerMid, upperMid; cbn [fst snd Nat.add];
      lra. }
  assert (Hright : onSegment
                     (Line (upperMid centerY sp (length sp - 2)
                                     (length sp - 2 + 1))
                           (upperControl centerY sp (length sp - 1)))
                     (px, centerY - d)
                   <-> onSegment
                         (Quad (width, centerY)
                               (lowerControl centerY sp (length sp - 1))
                               (lowerMid centerY sp (length sp - 1)
                                         (length sp - 1 - 1)))
                         (px, centerY + d)).
  { unfold upperControl, lowerControl. rewrite Hlast. cbn [x y].
    replace (centerY - 0) with centerY by ring.
    replace (centerY + 0) with centerY by ring.
    apply cap_mirror_down; unfold lowerMid, upperMid; cbn [fst snd];
      replace (length sp - 2 + 1)%nat with (length sp - 1)%nat by lia;
      replace (length sp - 1 - 1)%nat with (length sp - 2)%nat by lia; lra. }
  assert (Hcorner : onSegment (Line (upperControl centerY sp (length sp - 1))
                                    (width, centerY)) (px, centerY - d)
                    -> px = width /\ d = 0).
  { unfold upperControl. rewrite Hlast. cbn [x y].
    replace (centerY - 0) with centerY by ring.
    intros [t [_ Hq]]. unfold pointOn in Hq. cbn [fst snd] in Hq.
    rewrite !linear_same in Hq. injection Hq as Hx Hy. split; lra. }
  assert (Hstart : onSegment
                     (Quad (width, centerY)
                           (lowerControl centerY sp (length sp - 1))
                           (lowerMid centerY sp (length sp - 1)
                                     (length sp - 1 - 1)))
                     (width, centerY + 0)).
  { exists 0. split; [lra|]. unfold pointOn, bezier. cbn [fst snd].
    f_equal; ring. }
  rewrite upperContour_split, lowerContour_curves by assumption.
  unfold onContour. split.
  - intros [s [Hin Hon]]. apply in_app_or in Hin as [Hin | Hin].
    + apply in_map_iff in Hin as [i [<- Hi]]. apply in_seq in Hi.
      destruct (Nat.eqb_spec i 0) as [-> | Hne].
      * exists (Line (lowerMid centerY sp 1 0) (0, centerY)).
        split; [apply in_or_app; right; now left | now apply Hleft].
      * exists (lowerCurve centerY sp i). split.
        -- apply in_or_app. left. apply in_map_iff. exists i.
           split; [|rewrite <- in_rev; apply in_seq; lia].
           destruct (Nat.eqb_spec i (length sp - 1)); [lia | reflexivity].
        -- apply curve_mirror; [lia | exact Hon].
    + exists (Quad (width, centerY)
                   (lowerControl centerY sp (length sp - 1))
                   (lowerMid centerY sp (length sp - 1) (length sp - 1 - 1))).
      split.
      * apply in_or_app. left. apply in_map_iff. exists (length sp - 1)%nat.
        split; [now rewrite Nat.eqb_refl|].
        rewrite <- in_rev. apply in_seq. lia.
      * destruct Hin as [<- | [<- | []]]; [now apply Hright|].
        destruct (Hcorner Hon) as [-> ->]. exact Hstart.
  - intros [s [Hin Hon]]. apply in_app_or in Hin as [Hin | [<- | []]].
    + apply in_map_iff in Hin as [i [<- Hi]].
      rewrite <- in_rev in Hi. apply in_seq in Hi.
      destruct (Nat.eqb_spec i (length sp - 1)) as [-> | Hne].
      * exists (Line (upperMid centerY sp (length sp - 2)
                               (length sp - 2 + 1))
                     (upperControl centerY sp (length sp - 1))).
        split; [apply in_or_app; right; now left | now apply Hright].
      * exists (upperCurve centerY sp i). split.
        -- apply in_or_app. left. apply in_map_iff. exists i.
           split; [|apply in_seq; lia].
           destruct (Nat.eqb_spec i 0); [lia | reflexivity].
        -- apply curve_mirror; [lia | exact Hon].
    + exists (Quad (0, centerY) (upperControl centerY sp 0)
                   (upperMid centerY sp 0 (0 + 1))).
      split; [|now apply Hleft].
      apply in_or_app. left. apply in_map_iff. exists 0%nat.
      split; [reflexivity | apply in_seq; lia].
Qed.

Lemma mirrorSymmetric_closed_ends_witness :
  mirrorSymmetric 2 5 [mkPoint 0 0; mkPoint 1 3; mkPoint 2 0].
Proof.
  apply (mirrorSymmetric_closed_ends 2 5
           [mkPoint 0 0; mkPoint 1 3; mkPoint 2 0]);
    [cbn; lia | reflexivity | reflexivity].
Defined.

End PipelineFacts.


(** * Further properties of the handlers *)

Module HandlerFacts.
Import Player PlayerFacts.

Close Scope R_scope.
Open Scope Z_scope.

(** ** Well-formed states *)

Lemma distinctIds_filter (f : Song -> bool) l :
  distinctIds l -> distinctIds (filter f l).
Proof.
  unfold distinctIds. induction l as [|a l IH]; intros Hnd; [constructor|].
  cbn [map] in Hnd. apply NoDup_cons_iff in Hnd as [Hna Hnd].
  cbn [filter]. destruct (f a); [|now apply IH].
  cbn [map]. constructor; [|now apply IH].
  intros Hin. apply Hna. apply in_map_iff in Hin as [s [Hs Hin]].
  apply filter_In in Hin as [Hin _]. rewrite <- Hs. now apply in_map.
Qed.

Lemma findIndexFrom_absent (id0 : string) l i :
  ~ In id0 (map id l) ->
  findIndexFrom (fun s => String.eqb (id s) id0) l i = -1.
Proof.
  revert i; induction l as [|a l IH]; intros i Hnot; [reflexivity|].
  cbn [findIndexFrom]. destruct (String.eqb_spec (id a) id0) as [E | _].
  - exfalso. apply Hnot. now left.
  - apply IH. intros Hin. apply Hnot. now right.
Qed.

Lemma id_position (id0 : string) l :
  In id0 (map id l) -> exists k s, nth_error l k = Some s /\ id s = id0.
Proof.
  intros Hin. apply in_map_iff in Hin as [s [Hs Hin]].
  apply In_nth_error in Hin as [k Hk]. now exists k, s.
Qed.

(** [deleteSong] keeps a well-formed state well-formed, whatever id it is
    given: the ids stay distinct and the index stays [-1] or inside the
    shortened playlist. *)
Theorem deleteSong_wellFormed (id0 : string) (st : State) :
  wellFormed st -> wellFormed (deleteSong id0 st).
Proof.
  intros [Hnd [Hlo Hhi]]. split.
  - rewrite deleteSong_songs. now apply distinctIds_filter.
  - destruct (in_dec string_dec id0 (map id (songs st))) as [Hin | Hnot].
    + destruct (id_position _ _ Hin) as [k [s [Hk <-]]].
      assert (Hkl : (k < length (songs st))%nat)
        by (apply nth_error_Some; congruence).
      rewrite deleteSong_songs, (filter_distinct _ _ _ Hnd Hk),
        removeAt_length by assumption.
      pose proof (findIndex_distinct _ _ _ Hnd Hk) as Hidx.
      destruct (Z.lt_trichotomy (Z.of_nat k) (currentSongIndex st))
        as [Hlt | [Heq | Hgt]].
      * destruct (deleteSong_earlier (id s) st) as [-> _]; lia.
      * destruct (deleteSong_active (id s) st) as [-> _]; lia.
      * destruct (deleteSong_later (id s) st) as [-> _]; lia.
    + rewrite deleteSong_songs, filter_keeps_all by assumption.
      pose proof (findIndexFrom_absent id0 (songs st) 0 Hnot) as Hidx.
      fold (findIndex (fun s => String.eqb (id s) id0) (songs st)) in Hidx.
      destruct (Z.eq_dec (currentSongIndex st) (-1)) as [E | E].
      * destruct (deleteSong_active id0 st) as [-> _]; lia.
      * destruct (deleteSong_earlier id0 st) as [-> _]; lia.
Qed.

Lemma deleteSong_wellFormed_witness :
  wellFormed (deleteSong "b" (playing [songA; songB; songC] 2)).
Proof.
  apply (deleteSong_wellFormed "b" (playing [songA; songB; songC] 2)).
  split.
  - unfold distinctIds. cbn.
    repeat constructor; cbn; intuition discriminate.
  - cbn. lia.
Defined.

(** Asked to delete an id that no song carries while a track is selected,
    [deleteSong] removes nothing and calls nothing, yet moves the
    selection one place up: [findIndex] answers [-1], which is below the
    current index. *)
Theorem deleteSong_unknown_id (id0 : string) (st : State) :
  ~ In id0 (map id (songs st)) ->
  0 <= currentSongIndex st ->
  songs (deleteSong id0 st) = songs st /\
  currentSongIndex (deleteSong id0 st) = currentSongIndex st - 1 /\
  isPlaying (deleteSong id0 st) = isPlaying st /\
  calls (deleteSong id0 st) = calls st.
Proof.
  intros Hnot Hcur.
  pose proof (findIndexFrom_absent id0 (songs st) 0 Hnot) as Hidx.
  fold (findIndex (fun s => String.eqb (id s) id0) (songs st)) in Hidx.
  destruct (deleteSong_earlier id0 st) as [Hi Hp]; [lia|].
  split; [rewrite deleteSong_songs; now apply filter_keeps_all|].
  split; [exact Hi|]. split; [exact Hp|].
  unfold deleteSong.
  assert (Hfind : find (fun s => String.eqb (id s) id0) (songs st) = None).
  { destruct (find _ (songs st)) as [s|] eqn:Hf; [|reflexivity].
    apply find_some in Hf as [Hin Heq]. apply String.eqb_eq in Heq.
    exfalso. apply Hnot. rewrite <- Heq. now apply in_map. }
  rewrite Hfind.
  fold (findIndex (fun s => String.eqb (id s) id0) (songs st)).
  rewrite Hidx.
  destruct (Z.eqb_spec (-1) (currentSongIndex st)) as [E | _]; [lia|].
  destruct (Z.ltb_spec (-1) (currentSongIndex st)) as [_ | E]; [|lia].
  reflexivity.
Qed.

Lemma deleteSong_unknown_id_witness :
  songs (deleteSong "zz" (playing [songA; songB] 1)) = [songA; songB] /\
  currentSongIndex (deleteSong "zz" (playing [songA; songB] 1)) = 1 - 1 /\
  isPlaying (deleteSong "zz" (playing [songA; songB] 1)) = true /\
  calls (deleteSong "zz" (playing [songA; songB] 1)) = [].
Proof.
  apply (deleteSong_unknown_id "zz" (playing [songA; songB] 1)).
  - cbn. intuition discriminate.
  - cbn. lia.
Defined.

(** ** Moving through the playlist *)

Lemma previousTrack_eq st :
  songs st <> [] -> 0 <= currentSongIndex st ->
  previousTrack st
  = setIsPlaying true
      (setCurrentSongIndex
         ((currentSongIndex st - 1) mod Z.of_nat (length (songs st))) st).
Proof.
  intros Hne Hcur. unfold previousTrack.
  destruct (Nat.eqb_spec (length (songs st)) 0) as [E | E].
  { apply length_zero_iff_nil in E. contradiction. }
  rewrite Z.rem_mod_nonneg by lia.
  replace (currentSongIndex st - 1 + Z.of_nat (length (songs st)))
    with (currentSongIndex st - 1 + 1 * Z.of_nat (length (songs st))) by lia.
  rewrite Z_mod_plus_full.
  apply playSong_in_range, Z.mod_pos_bound. lia.
Qed.



Lemma nextSong_iter_index (k : nat) st :
  songs st <> [] -> 0 <= currentSongIndex st ->
  songs (Nat.iter k nextSong st) = songs st /\
  currentSongIndex (Nat.iter k nextSong st)
  = (if Nat.eqb k 0 then currentSongIndex st
     else (currentSongIndex st + Z.of_nat k)
          mod Z.of_nat (length (songs st))).
Proof.
  intros Hne Hcur. induction k as [|k [IHs IHi]]; [now split|].
  cbn [Nat.iter nat_rect Nat.eqb].
  change (nat_rect (fun _ => State) st (fun _ => nextSong) k)
    with (Nat.iter k nextSong st).
  set (n := Z.of_nat (length (songs st))) in *.
  assert (Hn : 0 < n).
  { unfold n. destruct (songs st); [contradiction | cbn; lia]. }
  assert (Hk : 0 <= currentSongIndex (Nat.iter k nextSong st)).
  { rewrite IHi. destruct (Nat.eqb k 0); [assumption|].
    apply Z.mod_pos_bound. lia. }
  rewrite nextSong_eq by (rewrite ?IHs; auto; lia).
  cbn [songs currentSongIndex setIsPlaying setCurrentSongIndex].
  split; [exact IHs|]. rewrite IHs, IHi. fold n.
  destruct (Nat.eqb_spec k 0) as [-> | Hk0].
  - f_equal; lia.
  - rewrite Zplus_mod_idemp_l. f_equal; lia.
Qed.

(** As many [nextSong] as there are songs lead back to the track they
    started from, the playlist untouched. *)
Theorem nextSong_full_cycle (st : State) :
  0 <= currentSongIndex st < Z.of_nat (length (songs st)) ->
  songs (Nat.iter (length (songs st)) nextSong st) = songs st /\
  currentSongIndex (Nat.iter (length (songs st)) nextSong st)
  = currentSongIndex st.
Proof.
  intros [Hlo Hhi].
  assert (Hne : songs st <> [])
    by (intros E; rewrite E in Hhi; cbn in Hhi; lia).
  destruct (nextSong_iter_index (length (songs st)) st Hne Hlo) as [Hs Hi].
  split; [exact Hs|]. rewrite Hi.
  destruct (Nat.eqb_spec (length (songs st)) 0) as [E | _]; [reflexivity|].
  replace (currentSongIndex st + Z.of_nat (length (songs st)))
    with (currentSongIndex st + 1 * Z.of_nat (length (songs st))) by lia.
  rewrite Z_mod_plus_full. apply Z.mod_small. lia.
Qed.

Lemma nextSong_full_cycle_witness :
  songs (Nat.iter 3 nextSong (playing [songA; songB; songC] 1))
  = [songA; songB; songC] /\
  currentSongIndex (Nat.iter 3 nextSong (playing [songA; songB; songC] 1))
  = 1.
Proof.
  apply (nextSong_full_cycle (playing [songA; songB; songC] 1)). cbn. lia.
Defined.

(** On a selected track, previous-after-next and next-after-previous both
    come back to that track. *)
Theorem previous_next_round_trip (st : State) :
  0 <= currentSongIndex st < Z.of_nat (length (songs st)) ->
  currentSongIndex (previousTrack (nextSong st)) = currentSongIndex st /\
  currentSongIndex (nextSong (previousTrack st)) = currentSongIndex st.
Proof.
  intros [Hlo Hhi].
  assert (Hne : songs st <> [])
    by (intros E; rewrite E in Hhi; cbn in Hhi; lia).
  set (n := Z.of_nat (length (songs st))) in *.
  split.
  - rewrite (nextSong_eq st) by (auto; lia).
    rewrite previousTrack_eq; cbn [songs currentSongIndex setIsPlaying
                                    setCurrentSongIndex]; auto;
      [|apply Z.mod_pos_bound; lia].
    fold n. rewrite Zminus_mod_idemp_l.
    replace (currentSongIndex st + 1 - 1) with (currentSongIndex st) by lia.
    apply Z.mod_small. lia.
  - rewrite (previousTrack_eq st) by (auto; lia).
    rewrite nextSong_eq; cbn [songs currentSongIndex setIsPlaying
                               setCurrentSongIndex]; auto;
      [|pose proof (Z.mod_pos_bound (currentSongIndex st - 1) n); fold n; lia].
    fold n. rewrite Zplus_mod_idemp_l.
    replace (currentSongIndex st - 1 + 1) with (currentSongIndex st) by lia.
    apply Z.mod_small. lia.
Qed.

Lemma previous_next_round_trip_witness :
  currentSongIndex (previousTrack (nextSong (playing [songA; songB] 1))) = 1 /\
  currentSongIndex (nextSong (previousTrack (playing [songA; songB] 1))) = 1.
Proof.
  apply (previous_next_round_trip (playing [songA; songB] 1)). cbn. lia.
Defined.

(** ** [addFiles] *)

Lemma stripExtension_dot_inside (base ext : string) :
  extensionChars (base ++ String "." ext) = false.
Proof.
  induction base as [|c base IH]; cbn [String.append extensionChars].
  - reflexivity.
  - rewrite IH. apply andb_false_r.
Qed.

(** The title is the file name without its last extension: for any
    [base] (dots, slashes and the empty string included) and any non-empty
    extension free of dots and slashes, [base.ext] becomes [base]. *)
Theorem stripExtension_removes_extension (base ext : string) :
  ext <> EmptyString -> extensionChars ext = true ->
  stripExtension (base ++ String "." ext) = base.
Proof.
  intros Hne Hext. induction base as [|c base IH].
  - destruct ext as [|d rest]; [contradiction|].
    cbn [String.append stripExtension matchesExtension]. rewrite Hext.
    reflexivity.
  - cbn [String.append]. unfold stripExtension; fold stripExtension.
    assert (Hm : matchesExtension (String c (base ++ String "." ext)) = false).
    { unfold matchesExtension.
      destruct (base ++ String "." ext)%string as [|d rest] eqn:Hrest;
        [reflexivity|].
      rewrite <- Hrest, stripExtension_dot_inside. apply andb_false_r. }
    rewrite Hm, IH. reflexivity.
Qed.

Lemma stripExtension_removes_extension_witness :
  stripExtension ("my.song" ++ String "." "mp3") = "my.song".
Proof.
  apply (stripExtension_removes_extension "my.song" "mp3");
    [discriminate | reflexivity].
Defined.

(** The files that pass the filter, and the songs made of them. *)
Lemma addFiles_songs rand objectURL files st :
  songs (addFiles rand objectURL files st)
  = (songs st
     ++ map (fun kf : nat * File =>
               mkSong (rand (fst kf)) (stripExtension (name (snd kf)))
                      (objectURL (fst kf)))
            (combine
               (seq 0 (length (filter (fun file => prefix "audio/" (type file))
                                      files)))
               (filter (fun file => prefix "audio/" (type file)) files)))%list.
Proof. reflexivity. Qed.

Lemma combine_seq_fst {A} (l : list A) (a : nat) :
  map fst (combine (seq a (length l)) l) = seq a (length l).
Proof.
  revert a; induction l as [|v l IH]; intros a; [reflexivity|].
  cbn. now rewrite IH.
Qed.

Lemma combine_seq_snd {A} (l : list A) (a : nat) :
  map snd (combine (seq a (length l)) l) = l.
Proof.
  revert a; induction l as [|v l IH]; intros a; [reflexivity|].
  cbn. now rewrite IH.
Qed.

Lemma addFiles_added rand objectURL (files : list File) (st : State) :
  let accepted := filter (fun file => prefix "audio/" (type file)) files in
  let st' := addFiles rand objectURL files st in
  let added := skipn (length (songs st)) (songs st') in
  firstn (length (songs st)) (songs st') = songs st /\
  length added = length accepted /\
  map title added = map (fun file => stripExtension (name file)) accepted /\
  map id added = map rand (seq 0 (length accepted)) /\
  map url added = map objectURL (seq 0 (length accepted)) /\
  isPlaying st' = isPlaying st /\ calls st' = calls st.
Proof.
  intros accepted st' added. unfold added, st'.
  rewrite addFiles_songs. fold accepted.
  rewrite firstn_app, Nat.sub_diag, firstn_all, firstn_O, app_nil_r.
  rewrite skipn_app, Nat.sub_diag, skipn_all, skipn_O. cbn [app].
  split; [reflexivity|].
  split; [now rewrite length_map, length_combine, length_seq, Nat.min_id|].
  rewrite !map_map. cbn [title id url].
  split; [now rewrite <- (map_map snd (fun file => stripExtension (name file))),
                      combine_seq_snd|].
  split; [now rewrite <- (map_map fst rand), combine_seq_fst|].
  split; [now rewrite <- (map_map fst objectURL), combine_seq_fst|].
  unfold addFiles.
  destruct ((currentSongIndex st =? -1) && _)%bool; split; reflexivity.
Qed.


(** A selected track stays selected: when the index is not [-1],
    [addFiles] leaves it alone and the same song is found under it. *)
Theorem addFiles_keeps_selection rand objectURL (files : list File)
    (st : State) (s : Song) :
  songAt (songs st) (currentSongIndex st) = Some s ->
  currentSongIndex (addFiles rand objectURL files st) = currentSongIndex st /\
  songAt (songs (addFiles rand objectURL files st))
         (currentSongIndex (addFiles rand objectURL files st)) = Some s.
Proof.
  intros Hs.
  assert (Hi : currentSongIndex (addFiles rand objectURL files st)
               = currentSongIndex st).
  { unfold addFiles.
    destruct (Z.eqb_spec (currentSongIndex st) (-1)) as [E | _].
    - rewrite E in Hs. discriminate.
    - reflexivity. }
  split; [exact Hi|]. rewrite Hi, addFiles_songs.
  apply songAt_Some in Hs as [Hpos Hs]. unfold songAt.
  destruct (Z.ltb_spec (currentSongIndex st) 0); [lia|].
  rewrite nth_error_app1; [exact Hs|]. apply nth_error_Some. congruence.
Qed.

Lemma addFiles_keeps_selection_witness :
  currentSongIndex
    (addFiles (fun _ => "x") (fun _ => "blob:x") [mkFile "n.mp3" "audio/mpeg"]
              (playing [songA; songB] 1)) = 1 /\
  songAt (songs (addFiles (fun _ => "x") (fun _ => "blob:x")
                          [mkFile "n.mp3" "audio/mpeg"]
                          (playing [songA; songB] 1)))
         (currentSongIndex
            (addFiles (fun _ => "x") (fun _ => "blob:x")
                      [mkFile "n.mp3" "audio/mpeg"]
                      (playing [songA; songB] 1))) = Some songB.
Proof.
  apply (addFiles_keeps_selection (fun _ => "x") (fun _ => "blob:x")
           [mkFile "n.mp3" "audio/mpeg"] (playing [songA; songB] 1) songB).
  reflexivity.
Defined.

(** With no track selected, any call of [addFiles] that leaves the
    playlist non-empty selects its first song, also when none of the
    files is accepted. *)
Theorem addFiles_selects_first rand objectURL (files : list File)
    (st : State) :
  currentSongIndex st = -1 ->
  songs (addFiles rand objectURL files st) <> [] ->
  currentSongIndex (addFiles rand objectURL files st) = 0.
Proof.
  intros Hcur Hne. rewrite addFiles_songs in Hne. unfold addFiles.
  rewrite Hcur. cbn [Z.eqb Pos.eqb andb].
  match goal with
  | |- context [(length ?l =? 0)%nat] =>
      destruct (Nat.eqb_spec (length l) 0) as [E | _];
      [apply length_zero_iff_nil in E; contradiction | reflexivity]
  end.
Qed.

Lemma addFiles_selects_first_witness :
  currentSongIndex
    (addFiles (fun _ => "x") (fun _ => "blob:x") [mkFile "notes.txt" "text/plain"]
              (setCurrentSongIndex (-1) (playing [songA; songB] 1))) = 0.
Proof.
  apply (addFiles_selects_first (fun _ => "x") (fun _ => "blob:x")
           [mkFile "notes.txt" "text/plain"]
           (setCurrentSongIndex (-1) (playing [songA; songB] 1)));
    [reflexivity | discriminate].
Defined.

(** When the drawn ids are new and pairwise distinct, [addFiles] keeps a
    well-formed state well-formed. *)
Theorem addFiles_wellFormed rand objectURL (files : list File) (st : State) :
  wellFormed st ->
  NoDup (map id (songs st)
         ++ map rand
              (seq 0 (length (filter (fun file => prefix "audio/" (type file))
                                     files)))) ->
  wellFormed (addFiles rand objectURL files st).
Proof.
  intros [Hnd [Hlo Hhi]] Hfresh.
  destruct (addFiles_added rand objectURL files st)
    as [Hold [Hlen [_ [Hids _]]]].
  assert (Hsplit : songs (addFiles rand objectURL files st)
                   = (songs st
                      ++ skipn (length (songs st))
                           (songs (addFiles rand objectURL files st)))%list).
  { pose proof (firstn_skipn (length (songs st))
                  (songs (addFiles rand objectURL files st))) as H.
    rewrite Hold in H. now symmetry. }
  split.
  - unfold distinctIds. rewrite Hsplit, map_app, Hids. exact Hfresh.
  - assert (Hl : (length (songs st)
                  <= length (songs (addFiles rand objectURL files st)))%nat).
    { rewrite Hsplit, length_app. lia. }
    assert (Hidx : currentSongIndex (addFiles rand objectURL files st)
                   = if ((currentSongIndex st =? -1)
                         && negb (length (songs (addFiles rand objectURL
                                                   files st)) =? 0)%nat)%bool
                     then 0 else currentSongIndex st).
    { unfold addFiles.
      destruct ((currentSongIndex st =? -1) && _)%bool; reflexivity. }
    rewrite Hidx.
    destruct (Z.eqb_spec (currentSongIndex st) (-1)) as [E | E];
      cbn [andb]; [|lia].
    destruct (Nat.eqb_spec
                (length (songs (addFiles rand objectURL files st))) 0);
      cbn [negb]; lia.
Qed.

Lemma addFiles_wellFormed_witness :
  wellFormed (addFiles (fun _ => "x") (fun _ => "blob:x")
                       [mkFile "n.mp3" "audio/mpeg"]
                       (playing [songA; songB] 1)).
Proof.
  apply (addFiles_wellFormed (fun _ => "x") (fun _ => "blob:x")
           [mkFile "n.mp3" "audio/mpeg"] (playing [songA; songB] 1)).
  - split.
    + unfold distinctIds. cbn.
      repeat constructor; cbn; intuition discriminate.
    + cbn. lia.
  - cbn. repeat constructor; cbn; intuition discriminate.
Defined.

(** The first files dropped on an empty player: the first accepted file
    becomes track 0, the song-change effect assigns its url to the audio
    element, and nothing is played. *)
Theorem addFiles_first_load playOk rand objectURL (files : list File)
    (st : State) (t : R) :
  songs st = [] -> currentSongIndex st = -1 -> isPlaying st = false ->
  audioRef st = Some t ->
  filter (fun file => prefix "audio/" (type file)) files <> [] ->
  let st' := dispatch playOk (addFiles rand objectURL files) st in
  currentSongIndex st' = 0 /\
  isPlaying st' = false /\
  calls st' = (calls st ++ [audio_src (objectURL 0%nat)])%list.
Proof.
  destruct st as [sg ci ip du ct ar ac va rr cl]. cbn.
  intros -> -> -> -> Hfiles.
  unfold dispatch, addFiles. cbn [songs currentSongIndex app].
  destruct (filter (fun file => prefix "audio/" (type file)) files)
    as [|f rest]; [contradiction|].
  cbn. unfold changeSong, songAt. cbn. auto.
Qed.

Lemma addFiles_first_load_witness :
  let st' := dispatch true
               (addFiles (fun _ => "x") (fun _ => "blob:x")
                         [mkFile "n.mp3" "audio/mpeg"])
               (mkState [] (-1) false 0 0 (Some 0%R) false false None []) in
  currentSongIndex st' = 0 /\
  isPlaying st' = false /\
  calls st' = ([] ++ [audio_src "blob:x"])%list.
Proof.
  apply (addFiles_first_load true (fun _ => "x") (fun _ => "blob:x")
           [mkFile "n.mp3" "audio/mpeg"]
           (mkState [] (-1) false 0 0 (Some 0%R) false false None []) 0%R);
    try reflexivity.
  cbn. discriminate.
Defined.

(** ** Deleting the active track *)

Lemma find_distinct l (k : nat) s :
  distinctIds l -> nth_error l k = Some s ->
  find (fun s' => String.eqb (id s') (id s)) l = Some s.
Proof.
  intros Hnd Hk.
  destruct (find (fun s' => String.eqb (id s') (id s)) l) as [s'|] eqn:Hf.
  - apply find_some in Hf as [Hin Heq]. apply String.eqb_eq in Heq.
    apply In_nth_error in Hin as [j Hj].
    pose proof (distinctIds_index l j k s s' Hnd Hj Hk Heq). subst j.
    congruence.
  - exfalso. apply nth_error_In in Hk.
    pose proof (find_none _ _ Hf s Hk) as Hno. cbn in Hno.
    rewrite String.eqb_refl in Hno. discriminate.
Qed.

(** Deleting the active track of a well-formed playlist tears playback
    down at once: the track's url is released, the audio element paused,
    the pending frame cancelled and the canvas cleared, in this order; no
    frame runs afterwards and the song-change effect has nothing to load. *)
Theorem deleteSong_active_teardown playOk (st : State) (s : Song) (t : R)
    (h : nat) :
  distinctIds (songs st) ->
  songAt (songs st) (currentSongIndex st) = Some s ->
  audioRef st = Some t ->
  requestRef st = Some h ->
  calls (deleteSong (id s) st)
  = (calls st ++ [revokeObjectURL (url s); audio_pause;
                  cancelAnimationFrame h; canvas_clearRect])%list /\
  frameRuns (deleteSong (id s) st) = false /\
  dispatch playOk (deleteSong (id s)) st = deleteSong (id s) st.
Proof.
  intros Hnd Hs Ha Hr.
  pose proof Hs as Hs'. apply songAt_Some in Hs' as [Hpos Hk].
  pose proof (findIndex_distinct _ _ _ Hnd Hk) as Hidx.
  rewrite Z2Nat.id in Hidx by assumption.
  destruct (deleteSong_active (id s) st Hidx) as [Hi [_ Hv]].
  assert (Hcalls : calls (deleteSong (id s) st)
                   = (calls st ++ [revokeObjectURL (url s); audio_pause;
                                   cancelAnimationFrame h;
                                   canvas_clearRect])%list).
  { unfold deleteSong. rewrite (find_distinct _ _ _ Hnd Hk), Hidx, Z.eqb_refl.
    unfold canvasRef. rewrite Hs.
    destruct st as [sg ci ip du ct ar ac va rr cl]. cbn in Ha, Hr. subst.
    cbn. now rewrite <- !app_assoc. }
  split; [exact Hcalls|]. split.
  - unfold frameRuns. now rewrite Hv.
  - unfold dispatch. rewrite Hi.
    destruct (Z.eqb_spec (-1) (currentSongIndex st)) as [_ | _];
      [reflexivity|].
    unfold changeSong. now rewrite Hi.
Qed.

Lemma deleteSong_active_teardown_witness :
  calls (deleteSong (id songB) (playing [songA; songB] 1))
  = ([] ++ [revokeObjectURL (url songB); audio_pause;
            cancelAnimationFrame 1; canvas_clearRect])%list /\
  frameRuns (deleteSong (id songB) (playing [songA; songB] 1)) = false /\
  dispatch true (deleteSong (id songB)) (playing [songA; songB] 1)
  = deleteSong (id songB) (playing [songA; songB] 1).
Proof.
  apply (deleteSong_active_teardown true (playing [songA; songB] 1) songB
           0%R 1%nat); try reflexivity.
  unfold distinctIds. cbn. repeat constructor; cbn; intuition discriminate.
Defined.

(** ** [togglePlay] *)

(** [togglePlay] never touches the playlist or the selection, and it sets
    the pause timer exactly when it runs the pause sequence: audio element
    mounted, a track selected, playing. *)
Theorem togglePlay_frame (gainValue : R) (playOk : bool) (st : State) :
  songs (fst (togglePlay gainValue playOk st)) = songs st /\
  currentSongIndex (fst (togglePlay gainValue playOk st))
  = currentSongIndex st /\
  snd (togglePlay gainValue playOk st)
  = (if (match audioRef st with Some _ => true | None => false end
         && negb (currentSongIndex st =? -1) && isPlaying st)%bool
     then [pauseTimer] else []).
Proof.
  destruct st as [sg ci ip du ct [t|] [|] [|] rr cl];
    unfold togglePlay, initAudioContext; cbn;
    destruct (ci =? -1); cbn; auto;
    destruct ip; cbn; auto; destruct playOk; cbn; auto.
Qed.

(** The pause sequence: the press itself clears the playing flag and
    schedules the fade from the current gain to 0 over 0.5 s, without
    pausing the element or stopping the render loop; the timer callback
    then pauses the element, stops the loop and forgets the frame handle. *)
Theorem togglePlay_pause_sequence (gainValue : R) (playOk : bool)
    (st : State) (t : R) :
  audioRef st = Some t -> currentSongIndex st <> -1 ->
  isPlaying st = true -> audioContextRef st = true ->
  let pressed := fst (togglePlay gainValue playOk st) in
  let stopped := pauseTimeout pressed in
  snd (togglePlay gainValue playOk st) = [pauseTimer] /\
  isPlaying pressed = false /\
  isVisualizerActiveRef pressed = isVisualizerActiveRef st /\
  calls pressed
  = (calls st ++ [gain_cancelScheduledValues;
                  gain_setValueAtTime gainValue;
                  gain_linearRampToValueAtTime 0 (5 / 10)])%list /\
  In audio_pause (calls stopped) /\
  isVisualizerActiveRef stopped = false /\
  requestRef stopped = None /\
  frameRuns stopped = false.
Proof.
  destruct st as [sg ci ip du ct ar ac va rr cl]. cbn.
  intros -> Hci -> ->.
  unfold togglePlay. cbn.
  destruct (Z.eqb_spec ci (-1)) as [E | _]; [contradiction|]. cbn.
  repeat split; try (now rewrite <- !app_assoc).
  - unfold pauseTimeout, canvasRef. cbn.
    destruct rr; cbn; destruct (songAt sg ci); cbn;
      rewrite ?in_app_iff; cbn; auto 10.
  - unfold pauseTimeout, canvasRef. cbn.
    destruct rr; cbn; destruct (songAt sg ci); reflexivity.
  - unfold pauseTimeout, canvasRef. cbn.
    destruct rr; cbn; destruct (songAt sg ci); reflexivity.
  - unfold frameRuns, pauseTimeout, canvasRef. cbn.
    destruct rr; cbn; destruct (songAt sg ci); reflexivity.
Qed.

Lemma togglePlay_pause_sequence_witness :
  let pressed := fst (togglePlay (1 / 2) true (playing [songA] 0)) in
  let stopped := pauseTimeout pressed in
  snd (togglePlay (1 / 2) true (playing [songA] 0)) = [pauseTimer] /\
  isPlaying pressed = false /\
  isVisualizerActiveRef pressed
  = isVisualizerActiveRef (playing [songA] 0) /\
  calls pressed
  = (calls (playing [songA] 0)
     ++ [gain_cancelScheduledValues; gain_setValueAtTime (1 / 2);
         gain_linearRampToValueAtTime 0 (5 / 10)])%list /\
  In audio_pause (calls stopped) /\
  isVisualizerActiveRef stopped = false /\
  requestRef stopped = None /\
  frameRuns stopped = false.
Proof.
  apply (togglePlay_pause_sequence (1 / 2) true (playing [songA] 0) 0%R);
    try reflexivity.
  cbn. lia.
Defined.

(** The pause timer is never cancelled.  Pause, then play again before
    the 500 ms are over, then let the timer fire: the playing flag is set,
    yet the last thing done to the audio element is [pause()], and the
    render loop is stopped. *)
Theorem togglePlay_resume_before_timer (g1 g2 : R) (st : State) (s : Song)
    (t : R) (h : nat) :
  songAt (songs st) (currentSongIndex st) = Some s ->
  audioRef st = Some t -> isPlaying st = true ->
  audioContextRef st = true -> isVisualizerActiveRef st = true ->
  requestRef st = Some h ->
  let paused := fst (togglePlay g1 true st) in
  let resumed := fst (togglePlay g2 true paused) in
  let final := pauseTimeout resumed in
  snd (togglePlay g2 true paused) = [] /\
  isPlaying final = true /\
  isVisualizerActiveRef final = false /\
  frameRuns final = false /\
  calls final
  = (calls st ++ [gain_cancelScheduledValues; gain_setValueAtTime g1;
                  gain_linearRampToValueAtTime 0 (5 / 10);
                  gain_cancelScheduledValues; gain_setValueAtTime 0;
                  audio_play; gain_linearRampToValueAtTime 1 (8 / 10);
                  audio_pause; cancelAnimationFrame h;
                  canvas_clearRect])%list.
Proof.
  destruct st as [sg ci ip du ct ar ac va rr cl]. cbn.
  intros Hs -> -> -> -> ->.
  assert (Hci : ci <> -1).
  { intros ->. discriminate. }
  unfold togglePlay. cbn.
  destruct (Z.eqb_spec ci (-1)) as [E | _]; [contradiction|]. cbn.
  destruct (Z.eqb_spec ci (-1)) as [E | _]; [contradiction|]. cbn.
  unfold pauseTimeout, frameRuns, canvasRef. cbn. rewrite Hs. cbn.
  repeat split. now rewrite <- !app_assoc.
Qed.

Lemma togglePlay_resume_before_timer_witness :
  let paused := fst (togglePlay (1 / 2) true (playing [songA] 0)) in
  let resumed := fst (togglePlay 0 true paused) in
  let final := pauseTimeout resumed in
  snd (togglePlay 0 true paused) = [] /\
  isPlaying final = true /\
  isVisualizerActiveRef final = false /\
  frameRuns final = false /\
  calls final
  = (calls (playing [songA] 0)
     ++ [gain_cancelScheduledValues; gain_setValueAtTime (1 / 2);
         gain_linearRampToValueAtTime 0 (5 / 10);
         gain_cancelScheduledValues; gain_setValueAtTime 0;
         audio_play; gain_linearRampToValueAtTime 1 (8 / 10);
         audio_pause; cancelAnimationFrame 1; canvas_clearRect])%list.
Proof.
  apply (togglePlay_resume_before_timer (1 / 2) 0 (playing [songA] 0) songA
           0%R 1%nat); reflexivity.
Defined.

(** ** Auto-advance and reload *)

Lemma nextSong_wraps_witness :
  currentSongIndex (nextSong (playing [songA; songB] 1))
  = (1 + 1) mod Z.of_nat (length [songA; songB]) /\
  isPlaying (nextSong (playing [songA; songB] 1)) = true /\
  songs (nextSong (playing [songA; songB] 1)) = [songA; songB].
Proof.
  apply (nextSong_wraps (playing [songA; songB] 1)); cbn; [discriminate | lia].
Defined.

Lemma onEnded_next_song_plays_witness :
  currentSongIndex (onEnded true (playing [songA; songB] 1))
  = (1 + 1) mod Z.of_nat (length [songA; songB]) /\
  In audio_play (calls (onEnded true (playing [songA; songB] 1))).
Proof.
  apply (onEnded_next_song_plays true (playing [songA; songB] 1));
    cbn; [lia | lia | discriminate].
Defined.

Lemma call_keeps (c c' : Call) st :
  In c (calls st) -> In c (calls (call c' st)).
Proof. intros H. cbn. apply in_or_app. now left. Qed.

Lemma autoPlay_keeps_calls playOk (c : Call) st :
  In c (calls st) -> In c (calls (autoPlay playOk st)).
Proof.
  destruct st as [sg ci ip du ct ar [|] [|] rr cl]; destruct playOk;
    unfold autoPlay; cbn; intros H; rewrite ?in_app_iff; auto 10.
Qed.

Lemma deleteSong_refs id0 st :
  audioRef (deleteSong id0 st) = audioRef st.
Proof.
  unfold deleteSong.
  destruct st as [sg ci ip du ct ar ac va rr cl]. cbn.
  repeat match goal with
         | |- context [if ?b then _ else _] => destruct b; cbn
         | |- context [match ?x with Some _ => _ | None => _ end] =>
             destruct x; cbn
         end; reflexivity.
Qed.

(** Deleting a track in front of the one that is playing is not silent:
    the index moves, so the song-change effect runs again, assigns the
    url of the still-active track to the audio element and calls
    [play()], which starts that track over. *)
Theorem deleteSong_earlier_restarts playOk (st : State) (k : nat)
    (s a : Song) (t : R) :
  distinctIds (songs st) ->
  nth_error (songs st) k = Some s ->
  Z.of_nat k < currentSongIndex st ->
  songAt (songs st) (currentSongIndex st) = Some a ->
  audioRef st = Some t -> isPlaying st = true ->
  let st' := dispatch playOk (deleteSong (id s)) st in
  currentSongIndex st' = currentSongIndex st - 1 /\
  In (audio_src (url a)) (calls st') /\
  In audio_play (calls st').
Proof.
  intros Hnd Hk Hlt Ha Haudio Hplay st'.
  destruct (deleteSong_earlier (id s) st) as [Hi Hp].
  { now rewrite (findIndex_distinct _ _ _ Hnd Hk). }
  assert (Hsong : songAt (songs (deleteSong (id s) st))
                         (currentSongIndex st - 1) = Some a).
  { rewrite deleteSong_songs, (filter_distinct _ _ _ Hnd Hk).
    apply songAt_Some in Ha as [Hpos Ha]. unfold songAt.
    destruct (Z.ltb_spec (currentSongIndex st - 1) 0); [lia|].
    rewrite removeAt_after;
      [|lia | apply nth_error_Some; congruence].
    rewrite <- Ha. f_equal. lia. }
  unfold st', dispatch. rewrite Hi.
  destruct (Z.eqb_spec (currentSongIndex st - 1) (currentSongIndex st))
    as [E | _]; [lia|].
  unfold changeSong. rewrite Hi, Hsong, deleteSong_refs, Haudio.
  destruct (Z.eqb_spec (currentSongIndex st - 1) (-1)) as [E | _]; [lia|].
  cbn [negb]. cbn [isPlaying call]. rewrite Hp, Hplay.
  set (loaded := call (audio_src (url a)) (deleteSong (id s) st)).
  assert (Hsrc : In (audio_src (url a)) (calls loaded)).
  { unfold loaded. cbn. apply in_or_app. right. now left. }
  assert (Hidx : currentSongIndex loaded = currentSongIndex st - 1)
    by (unfold loaded; cbn; exact Hi).
  destruct (audioContextRef loaded) eqn:Hctx.
  - split; [|split].
    + rewrite <- Hidx. destruct loaded as [sg ci ip du ct ar ac va rr cl].
      unfold autoPlay. cbn. destruct ac, va, playOk; reflexivity.
    + now apply autoPlay_keeps_calls.
    + apply autoPlay_plays.
  - split; [|split].
    + rewrite <- Hidx. destruct loaded as [sg ci ip du ct ar ac va rr cl].
      unfold autoPlay, initAudioContext. cbn.
      destruct ar, ac, va, playOk; reflexivity.
    + apply autoPlay_keeps_calls. unfold initAudioContext.
      destruct (audioRef loaded); [rewrite Hctx|]; exact Hsrc.
    + apply autoPlay_plays.
Qed.

Lemma deleteSong_earlier_restarts_witness :
  let st' := dispatch true (deleteSong (id songA))
               (playing [songA; songB; songC] 2) in
  currentSongIndex st' = 2 - 1 /\
  In (audio_src (url songC)) (calls st') /\
  In audio_play (calls st').
Proof.
  apply (deleteSong_earlier_restarts true (playing [songA; songB; songC] 2)
           0%nat songA songC 0%R); try reflexivity.
  unfold distinctIds. cbn. repeat constructor; cbn; intuition discriminate.
Defined.

End HandlerFacts.


(** * Further properties of the time display and of seeking *)

Module TimeFacts.
Import Player SeekFacts.

Lemma two_digits (n : nat) :
  (n < 60)%nat -> String.length (padStart2 (toString (Z.of_nat n))) = 2%nat.
Proof.
  intros Hn.
  do 60 (destruct n as [|n]; [reflexivity|]). lia.
Qed.

Lemma Zfloor_minus_multiple (time : R) (m : Z) :
  Zfloor (time - 60 * IZR m) = (Zfloor time - 60 * m)%Z.
Proof.
  replace (time - 60 * IZR m) with (time + IZR (- (60 * m))).
  - rewrite Zfloor_addz. lia.
  - rewrite opp_IZR, mult_IZR. ring.
Qed.

Lemma minutes_seconds_range (time : R) :
  0 < time ->
  (0 <= Zfloor (time / 60))%Z /\
  (0 <= Zfloor time - 60 * Zfloor (time / 60) <= 59)%Z.
Proof.
  intros Hpos. set (minutes := Zfloor (time / 60)).
  pose proof (Zfloor_bound (time / 60)) as [Hm1 Hm2]. fold minutes in Hm1, Hm2.
  split; [unfold minutes; apply Zfloor_lub; lra|]. split.
  - assert ((60 * minutes <= Zfloor time)%Z); [|lia].
    apply Zfloor_lub. rewrite mult_IZR. lra.
  - assert ((Zfloor time < 60 * minutes + 60)%Z); [|lia].
    apply lt_IZR. rewrite plus_IZR, mult_IZR.
    pose proof (Zfloor_bound time) as [Hf _]. lra.
Qed.

Lemma formatTime_positive (time : R) :
  0 < time ->
  formatTime time
  = (toString (Zfloor (time / 60)) ++ ":"
     ++ padStart2 (toString (Zfloor time - 60 * Zfloor (time / 60))))%string.
Proof.
  intros Hpos. unfold formatTime.
  destruct (Req_dec_T time 0) as [E | _]; [lra|].
  unfold jsRem, Ztrunc.
  destruct (Rle_dec 0 (time / 60)) as [_ | Hn]; [|lra].
  rewrite Zfloor_minus_multiple. reflexivity.
Qed.

(** For a positive time [formatTime] prints the whole seconds of [time]
    split into minutes and seconds: the seconds field is between 0 and 59
    and always two characters wide, and [60 * minutes + seconds] is the
    floor of [time]. *)
Theorem formatTime_fields (time : R) :
  0 < time ->
  let minutes := Zfloor (time / 60) in
  let seconds := (Zfloor time - 60 * minutes)%Z in
  formatTime time
  = (toString minutes ++ ":" ++ padStart2 (toString seconds))%string /\
  (0 <= minutes)%Z /\ (0 <= seconds <= 59)%Z /\
  String.length (padStart2 (toString seconds)) = 2%nat.
Proof.
  intros Hpos minutes seconds.
  destruct (minutes_seconds_range time Hpos) as [Hmin Hsec].
  fold minutes in Hmin, Hsec. fold seconds in Hsec.
  split; [now apply formatTime_positive|].
  split; [exact Hmin|]. split; [exact Hsec|].
  replace seconds with (Z.of_nat (Z.to_nat seconds)) by lia.
  apply two_digits. lia.
Qed.

Lemma formatTime_fields_witness :
  formatTime (151 / 2)
  = (toString (Zfloor (151 / 2 / 60)) ++ ":"
     ++ padStart2 (toString (Zfloor (151 / 2) - 60 * Zfloor (151 / 2 / 60))))%string /\
  (0 <= Zfloor (151 / 2 / 60))%Z /\
  (0 <= Zfloor (151 / 2) - 60 * Zfloor (151 / 2 / 60) <= 59)%Z /\
  String.length
    (padStart2 (toString (Zfloor (151 / 2) - 60 * Zfloor (151 / 2 / 60))))
  = 2%nat.
Proof. apply (formatTime_fields (151 / 2)). lra. Defined.

(** 75.5 seconds are shown as 1:15, and a display of zero as 0:00. *)
Lemma formatTime_examples :
  formatTime (151 / 2) = "1:15"%string /\ formatTime 0 = "0:00"%string.
Proof.
  split.
  - rewrite formatTime_positive by lra.
    rewrite (Zfloor_eq 1 (151 / 2 / 60)) by lra.
    rewrite (Zfloor_eq 75 (151 / 2)) by lra. reflexivity.
  - unfold formatTime. destruct (Req_dec_T 0 0) as [_ | E]; [reflexivity|].
    contradiction.
Qed.

(** A skip moves the position in the direction of [amount] and by at most
    [|amount|], when the position it starts from is inside
    [[0, duration]]. *)
Theorem skipTime_direction (amount : R) (st : State) (audioTime : R) :
  audioRef st = Some audioTime ->
  0 <= audioTime <= duration st ->
  exists audioTime',
    audioRef (skipTime amount st) = Some audioTime' /\
    (0 <= amount -> audioTime <= audioTime' <= audioTime + amount) /\
    (amount <= 0 -> audioTime + amount <= audioTime' <= audioTime).
Proof.
  intros Ha [H0 Hd]. unfold skipTime. rewrite Ha. cbn.
  rewrite orZero_id, min_max_clamp by lra.
  eexists. split; [reflexivity|]. unfold clamp.
  destruct (Rlt_dec (audioTime + amount) 0);
    destruct (Rlt_dec (duration st) (audioTime + amount)); split; intros; lra.
Qed.

Lemma skipTime_direction_witness :
  exists audioTime',
    audioRef (skipTime 10 (playing [songA] 0)) = Some audioTime' /\
    0 <= audioTime' <= 0 + 10.
Proof.
  destruct (skipTime_direction 10 (playing [songA] 0) 0)
    as [t' [Ht [Hfwd _]]]; [reflexivity | cbn; lra |].
  exists t'. split; [exact Ht|]. apply Hfwd. lra.
Defined.

End TimeFacts.
